(** * Elements: proxies, resource lookup, font matching and tile layout

  A shallow embedding of the parts of the Elements GUI toolkit that its
  design document makes claims about:

  - [Proxy]: [find_subject] and [find_element] of
    [lib/include/elements/element/proxy.hpp], and the forwarding
    behaviour of [proxy_base];
  - [ResourcePaths]: [find_file] of [lib/src/support/resource_paths.cpp];
  - [Font]: [trim], [init_font_map], [match], the constructors, the
    assignments and the destructor of [font], and the cleanup of the cache
    of faces, of [lib/src/support/font.cpp];
  - [Tile]: the slack distribution of the tile layout.

  The definitions come first, one module per source file; the theorems
  follow in modules of their own. *)

From Stdlib Require Import QArith Qabs Qround Lqa ZArith List String Ascii Bool Lia.
From stdpp Require Import base gmap strings list.

(* ===================================================================== *)
(** * Part I: the embedding                                              *)
(* ===================================================================== *)

(** ** proxy.hpp *)

Module Proxy.

Local Open Scope Q_scope.

(** Modelled from the spec: the geometry and context types of the element
    capability protocol ([element.hpp], [context.hpp]).  A size is a pair
    of extents, limits are a minimum and a maximum size, a stretch is a
    pair of weights; the drawing context carries the region being drawn
    and the backend's drawing state is the sequence of primitives painted
    so far. *)
Record point := mk_point { px : Q; py : Q }.
Record view_limits := mk_limits { lim_min : point; lim_max : point }.
Record view_stretch := mk_stretch { stretch_x : Q; stretch_y : Q }.
Record rect := mk_rect { r_left : Q; r_top : Q; r_right : Q; r_bottom : Q }.
Record basic_context := mk_basic_context { view_bounds : rect }.
Record context := mk_context { ctx_base : basic_context; bounds : rect }.
Record primitive := mk_primitive { shape : rect; paint : nat }.
Definition canvas := list primitive.

(** The dynamic type of an element is the name of its most derived
    class.  A pointer type [Ptr] is given by the dynamic classes that
    convert to it: [dynamic_cast<Ptr>(e)] succeeds exactly on them. *)
Definition class_id := string.
Definition ptr_type := class_id -> bool.

(** What a concrete (non-proxy) element does. *)
Record behaviour := mk_behaviour {
  b_limits : basic_context -> view_limits;
  b_stretch : view_stretch;
  b_draw : context -> canvas -> canvas
}.

(** What a class derived from [proxy_base] overrides.  An overriding
    method receives the subject's method, so that it can inspect or
    transform the subject's result; [None] keeps the method of
    [proxy_base].  The two hooks adjust the context (and the drawing
    state) around the delegated call. *)
Record proxy_overrides := mk_overrides {
  o_limits : option ((basic_context -> view_limits) -> basic_context -> view_limits);
  o_stretch : option (view_stretch -> view_stretch);
  o_draw : option ((context -> canvas -> canvas) -> context -> canvas -> canvas);
  o_prepare_subject : option (context -> canvas -> context * canvas);
  o_restore_subject : option (context -> canvas -> context * canvas)
}.

(** An element is either a concrete element or a proxy, which owns
    exactly one subject. *)
Inductive element :=
| leaf (cls : class_id) (b : behaviour)
| proxy (cls : class_id) (o : proxy_overrides) (subject : element).

Definition class_of (e : element) : class_id :=
  match e with
  | leaf cls _ => cls
  | proxy cls _ _ => cls
  end.

Definition is_proxy (e : element) : bool :=
  match e with
  | leaf _ _ => false
  | proxy _ _ _ => true
  end.

(** [element*]: [None] is the null pointer. *)
Definition element_ptr := option element.

(** [dynamic_cast<Ptr>(e)] *)
Definition dynamic_cast (Ptr : ptr_type) (e : element_ptr) : element_ptr :=
  match e with
  | Some x => if Ptr (class_of x) then Some x else None
  | None => None
  end.

(** The loop of [find_subject].  Its variable [proxy] is non-null
    exactly when the element reached is a proxy; each turn looks at the
    proxy's subject and either returns it or moves down to it. *)
Fixpoint find_subject_loop (Ptr : ptr_type) (e : element) : element_ptr :=
  match e with
  | proxy _ _ subject =>
      match dynamic_cast Ptr (Some subject) with
      | Some e' => Some e'
      | None => find_subject_loop Ptr subject
      end
  | leaf _ _ => None
  end.

Definition find_subject (Ptr : ptr_type) (e_ : element_ptr) : element_ptr :=
  match e_ with
  | Some e => find_subject_loop Ptr e
  | None => None
  end.

Definition find_element (Ptr : ptr_type) (e_ : element_ptr) : element_ptr :=
  match dynamic_cast Ptr e_ with
  | Some e => Some e
  | None => find_subject Ptr e_
  end.

(** The chain of subjects below an element, outermost first.  It is
    empty for a non-proxy. *)
Fixpoint subject_chain (e : element) : list element :=
  match e with
  | proxy _ _ subject => subject :: subject_chain subject
  | leaf _ _ => []
  end.

Definition subject_chain_of (e_ : element_ptr) : list element :=
  match e_ with
  | Some e => subject_chain e
  | None => []
  end.

(** The traversal as the design document words it: the first subject of
    the chain, from the outside in, that is castable to [Ptr]. *)
Definition first_castable_subject (Ptr : ptr_type) (e_ : element_ptr)
  : element_ptr :=
  List.find (fun s => Ptr (class_of s)) (subject_chain_of e_).

(** Number of proxies above the innermost subject. *)
Fixpoint depth (e : element) : nat :=
  match e with
  | proxy _ _ subject => S (depth subject)
  | leaf _ _ => O
  end.

(** The methods of [proxy_base] are declared in [proxy.hpp]; their bodies
    ([proxy.cpp]) are not part of the sources at hand.  By the design
    document every capability is forwarded unchanged to the subject unless
    the derived class overrides it, and [prepare_subject] and
    [restore_subject] run immediately before and after the delegated call
    and do nothing by default. *)

(** Modelled from the spec: the hook [proxy_base::prepare_subject], which
    does nothing unless overridden. *)
Definition prepare_subject (o : proxy_overrides) (ctx : context) (cnv : canvas)
  : context * canvas :=
  match o_prepare_subject o with
  | Some f => f ctx cnv
  | None => (ctx, cnv)
  end.

(** Modelled from the spec: the hook [proxy_base::restore_subject], which
    does nothing unless overridden. *)
Definition restore_subject (o : proxy_overrides) (ctx : context) (cnv : canvas)
  : context * canvas :=
  match o_restore_subject o with
  | Some f => f ctx cnv
  | None => (ctx, cnv)
  end.

(** Modelled from the spec: [proxy_base::limits] forwards to the subject. *)
Fixpoint limits (e : element) (ctx : basic_context) : view_limits :=
  match e with
  | leaf _ b => b_limits b ctx
  | proxy _ o subject =>
      match o_limits o with
      | Some f => f (limits subject) ctx
      | None => limits subject ctx
      end
  end.

(** Modelled from the spec: [proxy_base::stretch] forwards to the subject. *)
Fixpoint stretch (e : element) : view_stretch :=
  match e with
  | leaf _ b => b_stretch b
  | proxy _ o subject =>
      match o_stretch o with
      | Some f => f (stretch subject)
      | None => stretch subject
      end
  end.

(** Modelled from the spec: [proxy_base::draw] forwards to the subject,
    between the two hooks; the drawing state is threaded through. *)
Fixpoint draw (e : element) (ctx : context) (cnv : canvas) : canvas :=
  match e with
  | leaf _ b => b_draw b ctx cnv
  | proxy _ o subject =>
      match o_draw o with
      | Some f => f (draw subject) ctx cnv
      | None =>
          let '(sctx, cnv1) := prepare_subject o ctx cnv in
          let cnv2 := draw subject sctx cnv1 in
          snd (restore_subject o sctx cnv2)
      end
  end.

(** A proxy class that overrides nothing. *)
Definition proxy_base_default : proxy_overrides :=
  mk_overrides None None None None None.

Definition unmodified (o : proxy_overrides) : Prop :=
  o_limits o = None /\ o_stretch o = None /\ o_draw o = None /\
  o_prepare_subject o = None /\ o_restore_subject o = None.

(** [wrap n cls e]: [e] under [n] proxies that override nothing. *)
Fixpoint wrap (n : nat) (cls : class_id) (e : element) : element :=
  match n with
  | O => e
  | S n' => proxy cls proxy_base_default (wrap n' cls e)
  end.

(** Sample elements: a box that paints its bounds, a label, and the label
    under a margin-like proxy of the same class family. *)
Definition sample_box : element :=
  leaf "box"
    (mk_behaviour
       (fun _ => mk_limits (mk_point 0 0) (mk_point 100 100))
       (mk_stretch 1 1)
       (fun ctx cnv => mk_primitive (bounds ctx) 1 :: cnv)).

Definition sample_label : element :=
  leaf "label"
    (mk_behaviour
       (fun _ => mk_limits (mk_point 10 10) (mk_point 10 10))
       (mk_stretch 0 0)
       (fun ctx cnv => mk_primitive (bounds ctx) 2 :: cnv)).

Definition sample_decorated_label : element :=
  proxy "label" proxy_base_default sample_label.

Definition label_ptr : ptr_type := String.eqb "label".

Definition sample_context : context :=
  mk_context (mk_basic_context (mk_rect 0 0 640 480)) (mk_rect 10 10 110 60).

(** An element together with the chain of subjects below it. *)
Definition element_chain (e : element) : list element := e :: subject_chain e.

(** [enclose wrappers e]: [e] under the given proxies, outermost first,
    each with its class and what it overrides. *)
Fixpoint enclose (wrappers : list (class_id * proxy_overrides)) (e : element)
  : element :=
  match wrappers with
  | [] => e
  | (cls, o) :: rest => proxy cls o (enclose rest e)
  end.

Definition sample_wrappers : list (class_id * proxy_overrides) :=
  [("margin", proxy_base_default);
   ("align", mk_overrides None (Some (fun _ => mk_stretch 0 0)) None None None)].

End Proxy.

(** ** resource_paths.cpp *)

Module ResourcePaths.

Local Open Scope string_scope.

(** The file-system library ([infra/filesystem.hpp]) is a collaborator:
    [fs_exists] is the answer of [fs::exists] where it gives one,
    [fs_is_absolute] is [fs::path::is_absolute] and [fs_append p q] is
    [p / q].  A path is the string it prints as.  The empty path names no
    file, so [fs::exists] answers [false] on it.  The paths on which
    [fs::exists] gives no answer but raises an error are added by
    [filesystem_status] below. *)
Record filesystem := mk_filesystem {
  fs_exists : string -> bool;
  fs_is_absolute : string -> bool;
  fs_append : string -> string -> string;
  fs_exists_empty : fs_exists "" = false
}.

(** The range-for over [resource_paths]: [full_path] is still empty when
    the loop runs out of directories. *)
Fixpoint scan_resource_paths (fs : filesystem) (resource_paths : list string)
    (file : string) (full_path : string) : string :=
  match resource_paths with
  | [] => full_path
  | path :: rest =>
      let target := fs_append fs path file in
      if fs_exists fs target then target
      else scan_resource_paths fs rest file full_path
  end.

(** [find_file] on a name that [file.data()] reads back in full (a view of
    a whole C string or [std::string] without a NUL inside), on a file
    system where [fs::exists] raises no error: then the name of line 18
    and line 27 and the characters of line 21 are the same string, and
    every call returns.  [find_file_view] below is the function on any
    view and with the errors of [fs::exists]. *)
Definition find_file (fs : filesystem) (resource_paths : list string)
    (file : string) : string :=
  let full_path := "" in
  if fs_is_absolute fs file then
    if fs_exists fs full_path then file else full_path
  else
    scan_resource_paths fs resource_paths file full_path.

(** The lookup as the design document words it: the file under the first
    registered directory that has it, the empty string if none has. *)
Definition first_directory_with (fs : filesystem) (resource_paths : list string)
    (file : string) : string :=
  match List.find (fun dir => fs_exists fs (fs_append fs dir file)) resource_paths with
  | Some dir => fs_append fs dir file
  | None => ""
  end.

(** A POSIX file system holding the given files. *)
Definition posix_is_absolute (p : string) : bool :=
  match p with
  | String "/" _ => true
  | _ => false
  end.

Fixpoint has_filename (p : string) : bool :=
  match p with
  | EmptyString => false
  | String c EmptyString => negb (Ascii.eqb c "/")
  | String _ rest => has_filename rest
  end.

Definition posix_append (p q : string) : string :=
  if posix_is_absolute q then q
  else if has_filename p then p ++ "/" ++ q
  else p ++ q.

Definition posix_exists (files : list string) (p : string) : bool :=
  negb (String.eqb p "") && existsb (String.eqb p) files.

Definition posix (files : list string) : filesystem :=
  mk_filesystem (posix_exists files) posix_is_absolute posix_append eq_refl.

Definition sample_files : list string :=
  ["/usr/share/app/logo.png"; "/opt/app/logo.png"; "/opt/app/icons.ttf"].

Definition sample_resource_paths : list string :=
  ["/home/user/resources"; "/usr/share/app/"; "/opt/app"].

(** *** The name that is looked up, and the errors of [fs::exists] *)

(** A [string_view] is a pointer and a length.  [sv_chars] are the
    characters it views, [size()] of them, a NUL among them or not;
    [sv_beyond] are the bytes that follow them in memory, up to the first
    NUL there.  A view of a whole C string or of a [std::string] has
    nothing beyond; [string_view(buffer, 8)] on a longer buffer has the
    rest of the buffer beyond.  (Reading on where no NUL follows at all is
    undefined and has no model here.) *)
Record string_view := mk_string_view {
  sv_chars : string;
  sv_beyond : string
}.

(** A [char const*] read as a C string: the characters before the first
    NUL. *)
Fixpoint c_str (s : string) : string :=
  match s with
  | EmptyString => EmptyString
  | String ch rest =>
      if Ascii.eqb ch Ascii.zero then EmptyString else String ch (c_str rest)
  end.

(** [file.data()] where a C string is taken, as in [fs::path(file.data())]
    and [path / file.data()]: the reading starts at the first character of
    the view and stops at the first NUL, inside the view or beyond it. *)
Definition data (file : string_view) : string :=
  c_str (sv_chars file ++ sv_beyond file).

(** [std::string(file)]: the characters of the view, all of them. *)
Definition to_string (file : string_view) : string := sv_chars file.

(** The views that [data()] reads back in full: nothing beyond, and no NUL
    inside. *)
Definition nul_terminated (file : string_view) : bool :=
  String.eqb (sv_beyond file) "" && String.eqb (c_str (sv_chars file)) (sv_chars file).

(** The view of a whole C string. *)
Definition view_of (name : string) : string_view := mk_string_view (c_str name) "".

(** What a call gives: a value, or the [fs::filesystem_error] that leaves
    it, with the path the error was raised on. *)
Inductive outcome (A : Type) : Type :=
| returns (a : A)
| throws (path : string).
Arguments returns {A} a.
Arguments throws {A} path.

(** [fs::exists(p)], the overload without an [error_code] that [find_file]
    calls, asks for the status of [p]: "not found" is the answer [false],
    any other failure to get the status (a name longer than the system
    allows, a directory on the way that may not be searched) is raised as
    [filesystem_error].  [fs_errors] tells the paths whose status cannot
    be had; the empty path is "not found", not an error. *)
Record filesystem_status := mk_filesystem_status {
  fs_answers : filesystem;
  fs_errors : string -> bool;
  fs_errors_empty : fs_errors "" = false
}.

Definition exists_ (fx : filesystem_status) (p : string) : outcome bool :=
  if fs_errors fx p then throws p else returns (fs_exists (fs_answers fx) p).

(** The range-for over [resource_paths] of line 25, on the name that
    [file.data()] gives; an error of [fs::exists] ends the loop and the
    call. *)
Fixpoint scan_resource_paths_view (fx : filesystem_status)
    (resource_paths : list string) (name : string) (full_path : string)
  : outcome string :=
  match resource_paths with
  | [] => returns full_path
  | path :: rest =>
      let target := fs_append (fs_answers fx) path name in
      match exists_ fx target with
      | throws p => throws p
      | returns true => returns target
      | returns false => scan_resource_paths_view fx rest name full_path
      end
  end.

(** [find_file(string_view file)], lines 15 to 36. *)
Definition find_file_view (fx : filesystem_status) (resource_paths : list string)
    (file : string_view) : outcome string :=
  let full_path := "" in
  if fs_is_absolute (fs_answers fx) (data file) then
    match exists_ fx full_path with
    | throws p => throws p
    | returns true => returns (to_string file)
    | returns false => returns full_path
    end
  else
    scan_resource_paths_view fx resource_paths (data file) full_path.

(** A POSIX file system with directories that may not be searched: the
    status of a path under one of them cannot be had. *)
Definition posix_errors (locked : list string) (p : string) : bool :=
  negb (String.eqb p "") && existsb (fun dir => String.prefix (dir ++ "/") p) locked.

Definition posix_status (files locked : list string) : filesystem_status :=
  mk_filesystem_status (posix files) (posix_errors locked) eq_refl.

(** [string_view(buffer, 8)] on a buffer that holds [logo.png.orig]. *)
Definition sample_cut_view : string_view := mk_string_view "logo.png" ".orig".

(** The sample files, and two more paths that [fs::exists] accepts: a
    registered directory, and a file reached by leaving one. *)
Definition sample_tree : list string :=
  "/usr/share/app/" :: "/opt/app/../../etc/passwd" :: sample_files.

Definition sample_locked_paths : list string :=
  ["/srv/private"; "/usr/share/app/"; "/opt/app"].

End ResourcePaths.

(** ** font.cpp *)

Module Font.

Local Open Scope string_scope.

(** [std::isspace] in the C locale. *)
Definition isspace (ch : ascii) : bool :=
  let n := nat_of_ascii ch in
  Nat.eqb n 32 || (Nat.leb 9 n && Nat.leb n 13).

Fixpoint ltrim (s : string) : string :=
  match s with
  | String ch rest => if isspace ch then ltrim rest else s
  | EmptyString => EmptyString
  end.

Fixpoint rtrim (s : string) : string :=
  match s with
  | String ch rest =>
      match rtrim rest with
      | EmptyString => if isspace ch then EmptyString else String ch EmptyString
      | kept => String ch kept
      end
  | EmptyString => EmptyString
  end.

Definition trim (s : string) : string := rtrim (ltrim s).

(** What trimming is about: strings of white space, and white space at
    either end. *)
Fixpoint all_space (s : string) : bool :=
  match s with
  | String ch rest => isspace ch && all_space rest
  | EmptyString => true
  end.

Definition starts_with_space (s : string) : bool :=
  match s with
  | String ch _ => isspace ch
  | EmptyString => false
  end.

Fixpoint ends_with_space (s : string) : bool :=
  match s with
  | EmptyString => false
  | String ch EmptyString => isspace ch
  | String _ rest => ends_with_space rest
  end.

(** [uint8_t] *)
Definition uint8 := Byte.byte.
Definition to_int (b : uint8) : Z := Z.of_N (Byte.to_N b).
Definition u8 (n : N) : uint8 :=
  match Byte.of_N (n mod 256) with
  | Some b => b
  | None => Byte.x00
  end.

Record font_entry := mk_font_entry {
  full_name : string;
  file : string;
  weight : uint8;
  slant : uint8;
  stretch : uint8
}.

(** Modelled from the spec: a font description is a family list with a
    weight, a slant and a stretch ([font.hpp] is not part of the sources at
    hand).  These are the fields that [match] reads; the numeric ones have
    the type of the corresponding fields of [font_entry]. *)
Record font_descr := mk_font_descr {
  _families : string;
  _weight : uint8;
  _slant : uint8;
  _stretch : uint8
}.

Abbreviation font_map_type := (gmap string (list font_entry)).

(** A non-null [cairo_font_face_t*]; the null handle is [None]. *)
Definition face := positive.
Abbreviation cairo_font_map_type := (gmap string face).

(** What the platform supplies: the fonts that the fontconfig query of
    [init_font_map] lists, each as its family name and the entry built
    from it, and the loader that turns a font file (or, on macOS, a full
    name) into a face, or into null. *)
Record platform := mk_platform {
  discovered : list (string * font_entry);
  load : font_entry -> option face
}.

(** The insertion loop of [init_font_map]. *)
Definition add_font (m : font_map_type) (found : string * font_entry)
  : font_map_type :=
  let '(family, entry) := found in
  let key := trim family in
  match m !! key with
  | Some entries => <[key := (entries ++ [entry])%list]> m
  | None => <[key := [entry]]> m
  end.

Definition init_font_map (pf : platform) (m : font_map_type) : font_map_type :=
  fold_left add_font (discovered pf) m.

(** [std::getline(str, family, ',')] on what is left of the stream: the
    characters up to the next comma, which is consumed, or up to the end;
    it fails when nothing is left. *)
Fixpoint getline_from (s : string) : string * string :=
  match s with
  | EmptyString => (EmptyString, EmptyString)
  | String ch rest =>
      if Ascii.eqb ch "," then (EmptyString, rest)
      else let '(family, rest') := getline_from rest in (String ch family, rest')
  end.

Definition getline (s : string) : option (string * string) :=
  match s with
  | EmptyString => None
  | _ => Some (getline_from s)
  end.

(** All the families that successive [getline] calls yield. *)
Fixpoint getline_all (s : string) : list string :=
  match s with
  | EmptyString => []
  | String ch rest =>
      if Ascii.eqb ch "," then EmptyString :: getline_all rest
      else match getline_all rest with
           | [] => [String ch EmptyString]
           | family :: families => String ch family :: families
           end
  end.

Local Open Scope Q_scope.

(** Conversion of a [double] to [int]: truncation towards zero. *)
Definition double_to_int (d : Q) : Z := Z.quot (Qnum d) (Zpos (Qden d)).

Definition Qlt_bool (a b : Q) : bool := negb (Qle_bool b a).

(** The biased score.  Every term is a multiple of a quarter below 2^11,
    so that the [double] arithmetic of the source is exact. *)
Definition score (descr : font_descr) (item : font_entry) : Q :=
  inject_Z (Z.abs (to_int (_weight descr) - to_int (weight item))) * 1
  + inject_Z (Z.abs (to_int (_slant descr) - to_int (slant item))) * 3
  + inject_Z (Z.abs (to_int (_stretch descr) - to_int (stretch item))) * (1 # 4).

(** One turn of the inner loop: the state is [min] and [best_match]. *)
Definition best_match_step (descr : font_descr)
    (st : Z * option font_entry) (item : font_entry) : Z * option font_entry :=
  let '(min, best_match) := st in
  let diff := score descr item in
  if Qlt_bool diff (inject_Z min) then (double_to_int diff, Some item)
  else (min, best_match).

Definition best_match (descr : font_descr) (entries : list font_entry)
  : option font_entry :=
  snd (fold_left (best_match_step descr) entries (10000%Z, None)).

(** The outer loop of [match], over the families still to read. *)
Fixpoint match_families (m : font_map_type) (descr : font_descr)
    (families : list string) : option font_entry :=
  match families with
  | [] => None
  | family :: rest =>
      let family := trim family in
      match m !! family with
      | Some entries =>
          match best_match descr entries with
          | Some e => Some e
          | None => match_families m descr rest
          end
      | None => match_families m descr rest
      end
  end.

(** The font map once [match] has made sure it is initialised. *)
Definition ensure_font_map (pf : platform) (m : font_map_type) : font_map_type :=
  if bool_decide (m = ∅) then init_font_map pf m else m.

(** [match]: the result and the font map it leaves. *)
Definition match_ (pf : platform) (m : font_map_type) (descr : font_descr)
  : option font_entry * font_map_type :=
  let m' := ensure_font_map pf m in
  (match_families m' descr (getline_all (_families descr)), m').

(** The two process-wide maps. *)
Record font_state := mk_font_state {
  font_map : font_map_type;
  cairo_font_map : cairo_font_map_type
}.

Record font := mk_font { _handle : option face }.

(** [font::font(font_descr)].  The loader is taken as constructed. *)
Definition font_ctor (pf : platform) (st : font_state) (descr : font_descr)
  : font * font_state :=
  let '(match_ptr, fm) := match_ pf (font_map st) descr in
  match match_ptr with
  | Some e =>
      match cairo_font_map st !! full_name e with
      | Some face => (mk_font (Some face), mk_font_state fm (cairo_font_map st))
      | None =>
          match load pf e with
          | Some face =>
              (mk_font (Some face),
               mk_font_state fm (<[full_name e := face]> (cairo_font_map st)))
          | None => (mk_font None, mk_font_state fm (cairo_font_map st))
          end
      end
  | None => (mk_font None, mk_font_state fm (cairo_font_map st))
  end.

(** A sample platform: two families; the description asks for a weight
    that only the family listed second has. *)
Definition serif_black : font_entry :=
  mk_font_entry "Serif Black" "serif-black.ttf" (u8 90) (u8 0) (u8 50).
Definition sans_regular : font_entry :=
  mk_font_entry "Sans Regular" "sans.ttf" (u8 40) (u8 0) (u8 50).
Definition sans_bold : font_entry :=
  mk_font_entry "Sans Bold" "sans-bold.ttf" (u8 70) (u8 0) (u8 50).

Definition sample_platform : platform :=
  mk_platform
    [(" Serif", serif_black); ("Sans", sans_regular); ("Sans ", sans_bold)]
    (fun e => if String.eqb (file e) "sans.ttf" then Some 1%positive else None).


Definition sample_descr (families : string) : font_descr :=
  mk_font_descr families (u8 40) (u8 0) (u8 50).

(** *** Notions for further properties of [font.cpp] *)

Local Open Scope string_scope.

(** The family list read back: the families with commas between them. *)
Fixpoint join_commas (families : list string) : string :=
  match families with
  | [] => ""
  | [family] => family
  | family :: rest => family ++ "," ++ join_commas rest
  end.

Fixpoint has_comma (s : string) : bool :=
  match s with
  | String ch rest => Ascii.eqb ch "," || has_comma rest
  | EmptyString => false
  end.

Fixpoint ends_with_comma (s : string) : bool :=
  match s with
  | EmptyString => false
  | String ch EmptyString => Ascii.eqb ch ","
  | String _ rest => ends_with_comma rest
  end.

(** The entries discovered for a family key, in the order of discovery. *)
Definition entries_of (key : string) (found : list (string * font_entry))
  : list font_entry :=
  map snd (List.filter (fun p => String.eqb (trim (fst p)) key) found).

(** The score in quarters, and the score as [min = diff] stores it. *)
Definition score4 (descr : font_descr) (item : font_entry) : Z :=
  (4 * Z.abs (to_int (_weight descr) - to_int (weight item))
   + 12 * Z.abs (to_int (_slant descr) - to_int (slant item))
   + Z.abs (to_int (_stretch descr) - to_int (stretch item)))%Z.

Definition truncated_score (descr : font_descr) (item : font_entry) : Z :=
  double_to_int (score descr item).

(** What [init_font_map] reads from one fontconfig pattern:
    [FcPatternGetString] and [FcPatternGetInteger] answer [FcResultMatch]
    with a value, or do not match. *)
Record fc_pattern := mk_fc_pattern {
  fc_file : option string;
  fc_family : option string;
  fc_fullname : option string;
  fc_weight : option Z;
  fc_slant : option Z;
  fc_width : option Z
}.

(** What [font.hpp] and the floating-point [map_fc_weight] contribute to
    an entry: the three default values of [font_constants] and the mapping
    of fontconfig weights, taken as they come. *)
Record entry_defaults := mk_entry_defaults {
  weight_normal : uint8;
  slant_normal : uint8;
  stretch_normal : uint8;
  map_fc_weight : Z -> Z
}.

(** Conversion of an [int] to [uint8_t]. *)
Definition int_to_uint8 (z : Z) : uint8 := u8 (Z.to_N (z mod 256)).

(** The body of the loop of [init_font_map] up to the insertion: the
    family and the entry of a pattern that has a file, a family and a full
    name; [/] on [int] truncates. *)
Definition entry_of_pattern (fc : entry_defaults) (font : fc_pattern)
  : option (string * font_entry) :=
  match fc_file font, fc_family font, fc_fullname font with
  | Some file, Some family, Some full_name =>
      Some (family,
            mk_font_entry full_name file
              (match fc_weight font with
               | Some weight => int_to_uint8 (map_fc_weight fc weight)
               | None => weight_normal fc
               end)
              (match fc_slant font with
               | Some slant => int_to_uint8 (Z.quot (slant * 100) 110)
               | None => slant_normal fc
               end)
              (match fc_width font with
               | Some width => int_to_uint8 (Z.quot (width * 100) 200)
               | None => stretch_normal fc
               end))
  | _, _, _ => None
  end.

(** The entries of a font set; [FcFontList] may return null. *)
Definition font_set_entries (fc : entry_defaults) (fs : option (list fc_pattern))
  : list (string * font_entry) :=
  match fs with
  | Some fonts => omap (entry_of_pattern fc) fonts
  | None => []
  end.

Definition sample_defaults : entry_defaults :=
  mk_entry_defaults (u8 40) (u8 0) (u8 50) (fun w => (w / 2)%Z).

Definition sample_italic : fc_pattern :=
  mk_fc_pattern (Some "sans-italic.ttf") (Some " Sans ") (Some "Sans Italic")
    (Some 80%Z) (Some 100%Z) (Some 100%Z).

(** Two entries of one family: the first is off by three in stretch, the
    second is what the sample description asks for. *)
Definition sans_condensed : font_entry :=
  mk_font_entry "Sans Condensed" "sans-condensed.ttf" (u8 40) (u8 0) (u8 47).

(** *** Font objects and the reference counts of their faces *)

(** cairo counts the references to each face.  As its documentation has
    it, [cairo_font_face_reference] adds one to the count of a face and
    returns the face, and does nothing on null;
    [cairo_font_face_destroy] takes one off. *)
Definition ref_counts := face -> nat.

Definition cairo_font_face_reference (h : option face) (refs : ref_counts)
  : option face * ref_counts :=
  match h with
  | Some f => (Some f, fun g => if decide (g = f) then S (refs g) else refs g)
  | None => (None, refs)
  end.

Definition cairo_font_face_destroy (f : face) (refs : ref_counts) : ref_counts :=
  fun g => if decide (g = f) then Nat.pred (refs g) else refs g.

(** The font objects alive, each at its address, and the counts. *)
Definition addr := positive.

Record world := mk_world {
  objects : gmap addr font;
  refs : ref_counts
}.

(** [font::font(font const& rhs)], constructing at [this]. *)
Definition font_copy_ctor (this rhs : addr) (w : world) : option world :=
  match objects w !! rhs with
  | Some r =>
      let '(h, refs') := cairo_font_face_reference (_handle r) (refs w) in
      Some (mk_world (<[this := mk_font h]> (objects w)) refs')
  | None => None
  end.

(** [font& font::operator=(font const& rhs)] on the object at [this]. *)
Definition font_copy_assign (this rhs : addr) (w : world) : option world :=
  match objects w !! this, objects w !! rhs with
  | Some _, Some r =>
      if decide (rhs = this) then Some w
      else
        let '(h, refs') := cairo_font_face_reference (_handle r) (refs w) in
        Some (mk_world (<[this := mk_font h]> (objects w)) refs')
  | _, _ => None
  end.

(** [font& font::operator=(font&& rhs)]: the two handles are swapped. *)
Definition font_move_assign (this rhs : addr) (w : world) : option world :=
  match objects w !! this, objects w !! rhs with
  | Some t, Some r =>
      Some (mk_world (<[rhs := mk_font (_handle t)]>
                        (<[this := mk_font (_handle r)]> (objects w)))
                     (refs w))
  | _, _ => None
  end.

(** [font::~font()] on the object at [this]. *)
Definition font_dtor (this : addr) (w : world) : option world :=
  match objects w !! this with
  | Some t =>
      Some (mk_world (delete this (objects w))
                     (match _handle t with
                      | Some f => cairo_font_face_destroy f (refs w)
                      | None => refs w
                      end))
  | None => None
  end.

(** Whether a font holds a face, as a number, and the number of font
    objects that hold a face. *)
Definition holds (o : font) (f : face) : nat :=
  if decide (_handle o = Some f) then 1%nat else 0%nat.

Definition holders (f : face) (objs : gmap addr font) : nat :=
  size (filter (fun kv : addr * font => _handle (snd kv) = Some f) objs).

(** The counts are balanced when the count of every face is the number of
    font objects holding it plus the references held elsewhere, such as the
    one of the cache of faces. *)
Definition balanced (elsewhere : ref_counts) (w : world) : Prop :=
  forall f, refs w f = (holders f (objects w) + elsewhere f)%nat.

(** Two fonts on two faces, each face also in the cache. *)
Definition sample_world : world :=
  mk_world (<[2%positive := mk_font (Some 8%positive)]>
              (<[1%positive := mk_font (Some 7%positive)]> ∅))
           (fun g => if decide (g = 7%positive) then 2%nat
                     else if decide (g = 8%positive) then 2%nat else 0%nat).

Definition sample_elsewhere : ref_counts :=
  fun g => if decide (g = 7%positive) then 1%nat
           else if decide (g = 8%positive) then 1%nat else 0%nat.

(** [font::font(font&& rhs)], constructing at [this]: the handle of [rhs]
    is swapped with the handle that the new object starts with.  That
    initial value is set in [font.hpp], which is not part of the sources at
    hand; it is a parameter here. *)
Definition font_move_ctor (initial : option face) (this rhs : addr) (w : world)
  : option world :=
  match objects w !! rhs with
  | Some r =>
      Some (mk_world (<[rhs := mk_font initial]>
                        (<[this := mk_font (_handle r)]> (objects w)))
                     (refs w))
  | None => None
  end.

(** *** The directories that [init_font_map] hands to fontconfig *)




(** *** Programs over fonts *)

(** The number of names under which the cache holds a face; the cache owns
    one reference for each. *)
Definition cached (f : face) (cache : cairo_font_map_type) : nat :=
  size (filter (fun kv : string * face => snd kv = f) cache).

(** [font::font(font_descr)] constructing at [this], with the counts.  A
    face taken from the cache is referenced once more for the new font.  A
    face that the loader creates comes with one reference, which the new
    font owns, and is referenced once more for the cache. *)
Definition font_ctor_at (pf : platform) (this : addr) (descr : font_descr)
    (s : world * font_state) : world * font_state :=
  let '(w, st) := s in
  let '(match_ptr, fm) := match_ pf (font_map st) descr in
  match match_ptr with
  | Some e =>
      match cairo_font_map st !! full_name e with
      | Some face =>
          let '(h, refs') := cairo_font_face_reference (Some face) (refs w) in
          (mk_world (<[this := mk_font h]> (objects w)) refs',
           mk_font_state fm (cairo_font_map st))
      | None =>
          match load pf e with
          | Some face =>
              let created := fun g => if decide (g = face) then 1%nat else refs w g in
              let '(kept, refs') := cairo_font_face_reference (Some face) created in
              (mk_world (<[this := mk_font (Some face)]> (objects w)) refs',
               mk_font_state fm
                 (match kept with
                  | Some c => <[full_name e := c]> (cairo_font_map st)
                  | None => cairo_font_map st
                  end))
          | None =>
              (mk_world (<[this := mk_font None]> (objects w)) (refs w),
               mk_font_state fm (cairo_font_map st))
          end
      end
  | None =>
      (mk_world (<[this := mk_font None]> (objects w)) (refs w),
       mk_font_state fm (cairo_font_map st))
  end.

(** What a program does to fonts, copy assignment left aside. *)
Inductive font_op :=
| op_construct (this : addr) (descr : font_descr)
| op_copy (this rhs : addr)
| op_move (this rhs : addr)
| op_move_assign (this rhs : addr)
| op_destroy (this : addr).

(** One operation; [None] when it is not well formed: a constructor needs
    an address that holds no font, the others need the fonts they name. *)
Definition run_op (pf : platform) (op : font_op) (s : world * font_state)
  : option (world * font_state) :=
  let '(w, st) := s in
  match op with
  | op_construct this descr =>
      match objects w !! this with
      | None => Some (font_ctor_at pf this descr (w, st))
      | Some _ => None
      end
  | op_copy this rhs =>
      match objects w !! this with
      | None => option_map (fun w' => (w', st)) (font_copy_ctor this rhs w)
      | Some _ => None
      end
  | op_move this rhs =>
      match objects w !! this with
      | None => option_map (fun w' => (w', st)) (font_move_ctor None this rhs w)
      | Some _ => None
      end
  | op_move_assign this rhs =>
      option_map (fun w' => (w', st)) (font_move_assign this rhs w)
  | op_destroy this =>
      option_map (fun w' => (w', st)) (font_dtor this w)
  end.

Fixpoint run_ops (pf : platform) (ops : list font_op) (s : world * font_state)
  : option (world * font_state) :=
  match ops with
  | [] => Some s
  | op :: rest =>
      match run_op pf op s with
      | Some s' => run_ops pf rest s'
      | None => None
      end
  end.

(** The start of a program: no font, no face, an empty cache. *)
Definition initial (fm : font_map_type) : world * font_state :=
  (mk_world ∅ (fun _ => 0%nat), mk_font_state fm ∅).

(** The counts are exact when the count of every face is the number of
    fonts holding it plus the number of names it is cached under, every
    face that a font holds is cached, and every cached face is the one that
    the loader gives for an entry of that full name. *)
Definition exact_counts (pf : platform) (s : world * font_state) : Prop :=
  let '(w, st) := s in
  (forall f, refs w f = (holders f (objects w) + cached f (cairo_font_map st))%nat) /\
  (forall a f, objects w !! a = Some (mk_font (Some f)) ->
     exists name, cairo_font_map st !! name = Some f) /\
  (forall name f, cairo_font_map st !! name = Some f ->
     exists e, full_name e = name /\ load pf e = Some f).

(** Every face that the loader creates is a new one: entries of different
    full names never get the same face. *)
Definition loader_injective (pf : platform) : Prop :=
  forall e e' f, load pf e = Some f -> load pf e' = Some f ->
                 full_name e = full_name e'.

Definition sample_program : list font_op :=
  [op_construct 1%positive (sample_descr "Sans");
   op_copy 2%positive 1%positive;
   op_construct 3%positive (sample_descr "Mono, Serif");
   op_move_assign 1%positive 3%positive;
   op_destroy 2%positive;
   op_destroy 1%positive;
   op_destroy 3%positive].

(** The sample fonts with a loader that knows two of them by full name. *)
Definition named_loader (e : font_entry) : option face :=
  if String.eqb (full_name e) "Sans Regular" then Some 1%positive
  else if String.eqb (full_name e) "Serif Black" then Some 2%positive
  else None.

Definition sample_named_platform : platform :=
  mk_platform (discovered sample_platform) named_loader.

(** A moment at which discovery lists no font, as before any font
    directory is there to be read. *)
Definition no_fonts_platform : platform :=
  mk_platform [] (load sample_platform).

(** The [cleanup] object of [get_cairo_font_map]: when the process ends,
    every cached face is destroyed once for each name it is cached under,
    and the cache is cleared.  The order in which the names are visited
    makes no difference to the counts. *)
Definition cleanup (s : world * font_state) : world * font_state :=
  let '(w, st) := s in
  (mk_world (objects w)
     (map_fold (fun (_ : string) (f : face) (r : ref_counts) =>
                  cairo_font_face_destroy f r)
               (refs w) (cairo_font_map st)),
   mk_font_state (font_map st) ∅).

End Font.

(** ** Tile layout *)

Module Tile.

Local Open Scope Q_scope.

(** Modelled from the spec: the slack distribution of the tile layout
    along its main axis (the composite's [layout] is not part of the
    sources at hand).  Each child reports a minimum and a maximum extent
    and a stretch weight.  Extents are exact rationals.

    - If the minimums add up to more than the available extent, every
      child gets its minimum.
    - Otherwise the slack, [available - total_min], is handed out in
      proportion to the stretch weights.  A child pushed over its maximum
      is clamped to it, and what it could not take is handed out among the
      children not clamped so far, again by weight.  This repeats until no
      child is over its maximum or every child that is left has weight 0;
      slack that is left then stays unused. *)
Record child := mk_child { c_min : Q; c_max : Q; c_stretch : Q }.

(** A child during the distribution: the extent it holds so far and
    whether it has been clamped to its maximum. *)
Record slot := mk_slot { info : child; extent : Q; clamped : bool }.

Definition Qsum (l : list Q) : Q := fold_right Qplus 0 l.

Definition Qlt_bool (a b : Q) : bool := negb (Qle_bool b a).

Definition total_min (children : list child) : Q := Qsum (map c_min children).

Definition start (c : child) : slot := mk_slot c (c_min c) false.

(** A child is left when it is not clamped; it takes part when it is left
    and its weight is not 0. *)
Definition idle (s : slot) : bool :=
  clamped s || Qeq_bool (c_stretch (info s)) 0.

Definition remaining_stretch (slots : list slot) : Q :=
  Qsum (map (fun s => if clamped s then 0 else c_stretch (info s)) slots).

(** Modelled from the spec: step 3 of the tile layout,
    [extra_i = slack * stretch_i / sum(stretch_j)], on top of what the
    child holds. *)
Definition proposal (slack W : Q) (s : slot) : Q :=
  extent s + slack * c_stretch (info s) / W.

(** Modelled from the spec: the test of step 4, [min_i + extra_i > max_i],
    on a child that is left. *)
Definition over (slack W : Q) (s : slot) : bool :=
  negb (clamped s) && Qlt_bool (c_max (info s)) (proposal slack W s).

(** Modelled from the spec: the clamp of step 4.  A child over its
    maximum is clamped to it, any other child that is left takes what it is
    offered. *)
Definition settle (slack W : Q) (s : slot) : slot :=
  if clamped s then s
  else if Qlt_bool (c_max (info s)) (proposal slack W s)
       then mk_slot (info s) (c_max (info s)) true
       else mk_slot (info s) (proposal slack W s) false.

(** Modelled from the spec: the excess slack of step 4, what the children
    clamped in this round could not take. *)
Definition excess (slack W : Q) (slots : list slot) : Q :=
  Qsum (map (fun s => if over slack W s
                      then proposal slack W s - c_max (info s) else 0) slots).

(** Modelled from the spec: the repetition of step 4, until no child is
    over its maximum or every child that is left has weight 0.  Every round
    but the last clamps a child, so that one round more than there are
    children is always enough. *)
Fixpoint distribute (rounds : nat) (slack : Q) (slots : list slot) : list slot :=
  match rounds with
  | O => slots
  | S rounds' =>
      if forallb idle slots then slots
      else
        let W := remaining_stretch slots in
        if existsb (over slack W) slots
        then distribute rounds' (excess slack W slots) (map (settle slack W) slots)
        else map (settle slack W) slots
  end.

(** Modelled from the spec: the extents that the layout pass of a tile
    assigns along its main axis (steps 2 to 4). *)
Definition tile_layout (available : Q) (children : list child) : list Q :=
  if Qlt_bool available (total_min children) then map c_min children
  else map extent
         (distribute (S (length children)) (available - total_min children)
            (map start children)).

(** The data model's invariants on a child. *)
Definition valid (c : child) : Prop := c_min c <= c_max c /\ 0 <= c_stretch c.

(** The most the children can take: a child of weight 0 stays at its
    minimum, any other can grow to its maximum. *)
Definition capacity (children : list child) : Q :=
  Qsum (map (fun c => if Qeq_bool (c_stretch c) 0 then c_min c else c_max c)
            children).

(** Number of children not clamped. *)
Definition left_over (slots : list slot) : nat :=
  length (List.filter (fun s => negb (clamped s)) slots).

(** Notions that the proofs follow through the rounds: what keeps a slot
    within its child's limits, the share of the slack a slot is offered,
    and the most a slot can still hold. *)
Definition wf_slot (s : slot) : Prop :=
  c_min (info s) <= extent s /\ extent s <= c_max (info s) /\
  0 <= c_stretch (info s).

Definition offered (slack W : Q) (s : slot) : Q :=
  if clamped s then 0 else slack * c_stretch (info s) / W.

Definition room (s : slot) : Q :=
  if idle s then extent s else c_max (info s).

(** Two lists of extents agree. *)
Definition extents_eq (l1 l2 : list Q) : Prop := Forall2 Qeq l1 l2.

(** "Approximately", for figures quoted to two decimals. *)
Definition approx (x y : Q) : Prop := Qabs (x - y) <= 1 # 100.

(** The tile of the design document's examples: three children with
    weights 1, 2 and 1.  The examples give the available 300 as the sum
    of the minimums and hand out 150, 200 and 150 of an available 500
    before any clamping, so every child has minimum 100 and the first
    two children have maximums that 500 does not reach; these two
    maximums are left open here.  The third child has maximum 130. *)
Definition scenario (max1 max2 : Q) : list child :=
  [mk_child 100 max1 1; mk_child 100 max2 2; mk_child 100 130 1].

End Tile.

(* ===================================================================== *)
(** * Part II: the properties                                            *)
(* ===================================================================== *)

Module ProxyFacts.
Import Proxy.

Lemma dynamic_cast_some Ptr e e' :
  dynamic_cast Ptr (Some e) = Some e' -> e' = e /\ Ptr (class_of e) = true.
Proof.
  unfold dynamic_cast. destruct (Ptr (class_of e)) eqn:E; intros H.
  - injection H as <-. split; reflexivity.
  - discriminate.
Qed.

Lemma dynamic_cast_none Ptr e :
  dynamic_cast Ptr (Some e) = None -> Ptr (class_of e) = false.
Proof.
  unfold dynamic_cast. destruct (Ptr (class_of e)); [discriminate | reflexivity].
Qed.

Lemma find_subject_loop_first Ptr e :
  find_subject_loop Ptr e = List.find (fun s => Ptr (class_of s)) (subject_chain e).
Proof.
  induction e as [cls b | cls o s IH]; simpl.
  - reflexivity.
  - destruct (Ptr (class_of s)); [reflexivity | exact IH].
Qed.

Lemma subject_chain_depth e s : In s (subject_chain e) -> (depth s < depth e)%nat.
Proof.
  induction e as [cls b | cls o t IH]; simpl.
  - intros [].
  - intros [<- | H]; [lia | specialize (IH H); lia].
Qed.

Lemma find_some_split {A} (f : A -> bool) l x :
  List.find f l = Some x ->
  exists l1 l2, l = l1 ++ x :: l2 /\ f x = true /\ Forall (fun y => f y = false) l1.
Proof.
  induction l as [| a l IH]; simpl; [discriminate |].
  destruct (f a) eqn:E.
  - intros H. injection H as <-. exists [], l. repeat split; auto.
  - intros H. destruct (IH H) as (l1 & l2 & -> & Hx & Hl1).
    exists (a :: l1), l2. repeat split; auto.
Qed.

Lemma find_none_all {A} (f : A -> bool) l :
  List.find f l = None -> Forall (fun y => f y = false) l.
Proof.
  induction l as [| a l IH]; simpl; [constructor |].
  destruct (f a) eqn:E; [discriminate |]. intros H. constructor; auto.
Qed.

(** C5: [find_subject<Ptr>(e)] is the first subject, from the outside in,
    of the chain of proxy subjects below [e] that is castable to [Ptr]:
    everything before it in the chain is not castable, what lies beneath
    it is not looked at, and the result is null exactly when no subject of
    the chain, which ends at the first non-proxy, is castable. *)
Theorem find_subject_first_castable (Ptr : ptr_type) (e_ : element_ptr) :
  find_subject Ptr e_ = first_castable_subject Ptr e_ /\
  (forall s, find_subject Ptr e_ = Some s ->
     exists before beneath,
       subject_chain_of e_ = before ++ s :: beneath /\
       Ptr (class_of s) = true /\
       Forall (fun t => Ptr (class_of t) = false) before) /\
  (find_subject Ptr e_ = None <->
     Forall (fun t => Ptr (class_of t) = false) (subject_chain_of e_)).
Proof.
  assert (E : find_subject Ptr e_ = first_castable_subject Ptr e_).
  { destruct e_ as [e |]; [apply find_subject_loop_first | reflexivity]. }
  split; [exact E |]. rewrite E. unfold first_castable_subject. split.
  - intros s H. apply find_some_split in H. exact H.
  - split.
    + apply find_none_all.
    + intros H. destruct (List.find _ _) as [s |] eqn:F; [| reflexivity].
      apply find_some_split in F. destruct F as (l1 & l2 & Hl & Hs & _).
      rewrite Hl in H. apply Forall_app in H. destruct H as [_ H].
      inversion H; subst. congruence.
Qed.

(** C9 (first half): an element whose own dynamic type converts to [Ptr]
    is what [find_element<Ptr>] returns, whatever it wraps.  (Second half):
    [find_subject<Ptr>] never returns the element it is called on, since
    whatever it returns lies strictly beneath it in the chain of subjects,
    and it returns null on every non-proxy, also on one of type [Ptr]. *)
Theorem find_element_self_find_subject_beneath (Ptr : ptr_type) (e : element) :
  Ptr (class_of e) = true ->
  find_element Ptr (Some e) = Some e /\
  find_subject Ptr (Some e) <> Some e /\
  (forall s, find_subject Ptr (Some e) = Some s ->
     In s (subject_chain e) /\ (depth s < depth e)%nat) /\
  (is_proxy e = false -> find_subject Ptr (Some e) = None).
Proof.
  intros HP.
  assert (Hbelow : forall s, find_subject Ptr (Some e) = Some s ->
                     In s (subject_chain e) /\ (depth s < depth e)%nat).
  { intros s Hs. simpl in Hs. rewrite find_subject_loop_first in Hs.
    apply find_some_split in Hs. destruct Hs as (l1 & l2 & Hl & _ & _).
    assert (Hin : In s (subject_chain e)).
    { rewrite Hl. apply in_or_app. right. left. reflexivity. }
    split; [exact Hin | apply subject_chain_depth; exact Hin]. }
  split; [| split; [| split]].
  - unfold find_element, dynamic_cast. rewrite HP. reflexivity.
  - intros Heq. destruct (Hbelow e Heq) as [_ Hlt]. lia.
  - exact Hbelow.
  - destruct e; simpl; [reflexivity | discriminate].
Qed.

Lemma find_element_self_find_subject_beneath_witness :
  label_ptr (class_of sample_decorated_label) = true /\
  find_element label_ptr (Some sample_decorated_label)
    = Some sample_decorated_label /\
  find_subject label_ptr (Some sample_decorated_label) = Some sample_label.
Proof.
  split; [reflexivity |].
  split.
  - apply (find_element_self_find_subject_beneath
             label_ptr sample_decorated_label).
    reflexivity.
  - reflexivity.
Defined.

(** C4: a proxy that overrides nothing is transparent: its [limits], its
    [stretch] and the effect of its [draw] on the drawing state are those
    of its subject. *)
Theorem unmodified_proxy_transparent
    (cls : class_id) (o : proxy_overrides) (S : element) :
  unmodified o ->
  (forall ctx, limits (proxy cls o S) ctx = limits S ctx) /\
  stretch (proxy cls o S) = stretch S /\
  (forall ctx cnv, draw (proxy cls o S) ctx cnv = draw S ctx cnv).
Proof.
  intros (Hl & Hs & Hd & Hp & Hr). split; [| split].
  - intros ctx. simpl. rewrite Hl. reflexivity.
  - simpl. rewrite Hs. reflexivity.
  - intros ctx cnv. simpl. rewrite Hd.
    unfold prepare_subject, restore_subject. rewrite Hp, Hr. reflexivity.
Qed.

Lemma unmodified_proxy_transparent_witness :
  unmodified proxy_base_default /\
  draw (proxy "margin" proxy_base_default sample_box) sample_context []
  = [mk_primitive (mk_rect 10 10 110 60) 1].
Proof.
  assert (U : unmodified proxy_base_default).
  { repeat split; reflexivity. }
  split; [exact U |].
  destruct (unmodified_proxy_transparent "margin" proxy_base_default
              sample_box U) as (_ & _ & Hd).
  rewrite Hd. reflexivity.
Defined.

(** The same through any number of proxies that override nothing. *)
Lemma wrap_transparent (n : nat) (cls : class_id) (S : element) :
  (forall ctx, limits (wrap n cls S) ctx = limits S ctx) /\
  stretch (wrap n cls S) = stretch S /\
  (forall ctx cnv, draw (wrap n cls S) ctx cnv = draw S ctx cnv).
Proof.
  induction n as [| n (IHl & IHs & IHd)]; [repeat split |].
  split; [| split]; simpl; auto.
Qed.

(** An override, on the other hand, is observable. *)
Example overriding_proxy_not_transparent :
  let o := mk_overrides None (Some (fun _ => mk_stretch 0 0)) None None None in
  stretch (proxy "fixed" o sample_box) <> stretch sample_box.
Proof. simpl. discriminate. Qed.

(** *** Further properties of [find_element] and [find_subject] *)

Lemma element_chain_split (e : element) before s beneath :
  element_chain e = before ++ s :: beneath -> beneath = subject_chain s.
Proof.
  unfold element_chain. revert e.
  induction before as [| b before IH]; intros e H; simpl in H.
  - injection H as -> ->. reflexivity.
  - injection H as -> H. destruct b as [cls beh | cls o t]; simpl in H.
    + destruct before; discriminate.
    + apply (IH t). exact H.
Qed.

Lemma find_element_find (Ptr : ptr_type) (e : element) :
  find_element Ptr (Some e) = List.find (fun s => Ptr (class_of s)) (element_chain e).
Proof.
  unfold find_element, dynamic_cast, element_chain. simpl.
  destruct (Ptr (class_of e)); [reflexivity | apply find_subject_loop_first].
Qed.

(** X1: [find_element<Ptr>(e)] is the outermost element castable to [Ptr]
    among [e] and the subjects below it: nothing above the result is
    castable, everything else of the chain lies beneath the result, and the
    result is null exactly when neither [e] nor any subject is castable. *)
Theorem find_element_outermost_castable (Ptr : ptr_type) (e : element) :
  (forall s, find_element Ptr (Some e) = Some s ->
     Ptr (class_of s) = true /\
     exists above,
       element_chain e = above ++ s :: subject_chain s /\
       Forall (fun t => Ptr (class_of t) = false) above) /\
  (find_element Ptr (Some e) = None <->
     Forall (fun t => Ptr (class_of t) = false) (element_chain e)).
Proof.
  rewrite find_element_find. split.
  - intros s H. apply find_some_split in H.
    destruct H as (above & beneath & Hsplit & Hs & Habove).
    split; [exact Hs |]. exists above.
    rewrite <- (element_chain_split e above s beneath Hsplit). auto.
  - split; [apply find_none_all |].
    intros H. destruct (List.find _ _) as [s |] eqn:F; [| reflexivity].
    apply find_some_split in F. destruct F as (l1 & l2 & Hl & Hs & _).
    rewrite Hl in H. apply Forall_app in H. destruct H as [_ H].
    inversion H; subst. congruence.
Qed.

(** X2: [find_element] is idempotent: what it finds is castable, so that
    searching again from the result returns the result; on the null pointer
    it returns null. *)
Theorem find_element_idempotent (Ptr : ptr_type) (e_ : element_ptr) :
  find_element Ptr (find_element Ptr e_) = find_element Ptr e_.
Proof.
  destruct e_ as [e |]; [| reflexivity].
  destruct (find_element Ptr (Some e)) as [s |] eqn:F; [| reflexivity].
  rewrite find_element_find in F. apply find_some_split in F.
  destruct F as (_ & _ & _ & Hs & _).
  unfold find_element, dynamic_cast. rewrite Hs. reflexivity.
Qed.

Lemma find_subject_proxy (Ptr : ptr_type) cls o (s : element) :
  find_subject Ptr (Some (proxy cls o s)) = find_element Ptr (Some s).
Proof.
  unfold find_element, find_subject, dynamic_cast. simpl.
  destruct (Ptr (class_of s)); reflexivity.
Qed.

Lemma find_element_enclose
    (Ptr : ptr_type) (wrappers : list (class_id * proxy_overrides)) (e : element) :
  Forall (fun w => Ptr (fst w) = false) wrappers ->
  find_element Ptr (Some (enclose wrappers e)) = find_element Ptr (Some e).
Proof.
  induction 1 as [| [cls o] rest Hw _ IH]; [reflexivity |].
  simpl in Hw. simpl enclose.
  transitivity (find_subject Ptr (Some (proxy cls o (enclose rest e)))).
  - unfold find_element, dynamic_cast. simpl. rewrite Hw. reflexivity.
  - rewrite find_subject_proxy. exact IH.
Qed.

(** X3: the caller need not know the wrapping depth.  Under any number of
    proxies whose classes are not castable to [Ptr], whatever they override,
    [find_element] finds what it finds on the wrapped element, and so does
    [find_subject] as soon as there is at least one proxy. *)
Theorem find_element_through_wrappers
    (Ptr : ptr_type) (wrappers : list (class_id * proxy_overrides)) (e : element) :
  Forall (fun w => Ptr (fst w) = false) wrappers ->
  find_element Ptr (Some (enclose wrappers e)) = find_element Ptr (Some e) /\
  (wrappers <> [] ->
   find_subject Ptr (Some (enclose wrappers e)) = find_element Ptr (Some e)).
Proof.
  intros H. split; [apply find_element_enclose, H |].
  intros Hne. destruct wrappers as [| [cls o] rest]; [congruence |].
  simpl enclose. rewrite find_subject_proxy.
  apply find_element_enclose. inversion H; assumption.
Qed.

Lemma find_element_through_wrappers_witness :
  Forall (fun w => label_ptr (fst w) = false) sample_wrappers /\
  find_element label_ptr (Some (enclose sample_wrappers sample_label))
  = Some sample_label /\
  find_subject label_ptr (Some (enclose sample_wrappers sample_label))
  = Some sample_label.
Proof.
  assert (H : Forall (fun w => label_ptr (fst w) = false) sample_wrappers).
  { repeat constructor. }
  split; [exact H |].
  destruct (find_element_through_wrappers label_ptr sample_wrappers sample_label H)
    as [E1 E2].
  split.
  - rewrite E1. reflexivity.
  - rewrite E2; [reflexivity | discriminate].
Defined.

End ProxyFacts.

Module ResourcePathsFacts.
Import ResourcePaths.
Local Open Scope string_scope.

Lemma scan_first_directory fs paths file :
  scan_resource_paths fs paths file "" = first_directory_with fs paths file.
Proof.
  unfold first_directory_with.
  induction paths as [| dir rest IH]; simpl; [reflexivity |].
  destruct (fs_exists fs (fs_append fs dir file)); [reflexivity | exact IH].
Qed.

(** *** [find_file] on a view, with the errors of [fs::exists] *)

Lemma append_empty_r (s : string) : String.append s "" = s.
Proof.
  induction s as [| ch s IH]; [reflexivity |].
  change (String ch (String.append s "") = String ch s). rewrite IH. reflexivity.
Qed.

Lemma data_nul_terminated (file : string_view) :
  nul_terminated file = true -> data file = sv_chars file.
Proof.
  unfold nul_terminated, data. intros H.
  apply andb_true_iff in H. destruct H as [Hb Hc].
  apply String.eqb_eq in Hb. apply String.eqb_eq in Hc.
  rewrite Hb, append_empty_r. exact Hc.
Qed.

Lemma c_str_idempotent (s : string) : c_str (c_str s) = c_str s.
Proof.
  induction s as [| ch s IH]; simpl; [reflexivity |].
  destruct (Ascii.eqb ch Ascii.zero) eqn:E; simpl; [reflexivity |].
  rewrite E, IH. reflexivity.
Qed.

Lemma view_of_nul_terminated (name : string) : nul_terminated (view_of name) = true.
Proof.
  unfold nul_terminated, view_of. simpl. rewrite c_str_idempotent.
  apply String.eqb_refl.
Qed.

Lemma exists_true (fx : filesystem_status) (p : string) :
  exists_ fx p = returns true -> fs_exists (fs_answers fx) p = true.
Proof.
  unfold exists_. destruct (fs_errors fx p); [discriminate |].
  intros H. injection H as H. exact H.
Qed.

Lemma exists_empty (fx : filesystem_status) : exists_ fx "" = returns false.
Proof.
  unfold exists_. rewrite (fs_errors_empty fx), (fs_exists_empty (fs_answers fx)).
  reflexivity.
Qed.

Lemma scan_view_skips (fx : filesystem_status) (before rest : list string) (name : string) :
  Forall (fun d => exists_ fx (fs_append (fs_answers fx) d name) = returns false) before ->
  scan_resource_paths_view fx (before ++ rest)%list name ""
  = scan_resource_paths_view fx rest name "".
Proof.
  induction 1 as [| dir before Hdir _ IH]; simpl; [reflexivity |].
  rewrite Hdir. exact IH.
Qed.

Lemma scan_view_no_errors (fx : filesystem_status) (paths : list string) (name : string) :
  (forall d, In d paths -> fs_errors fx (fs_append (fs_answers fx) d name) = false) ->
  scan_resource_paths_view fx paths name ""
  = returns (scan_resource_paths (fs_answers fx) paths name "").
Proof.
  induction paths as [| dir rest IH]; simpl; intros H; [reflexivity |].
  unfold exists_. rewrite (H dir (or_introl eq_refl)).
  destruct (fs_exists (fs_answers fx) (fs_append (fs_answers fx) dir name));
    [reflexivity |].
  apply IH. intros d Hd. apply H. right. exact Hd.
Qed.

Lemma scan_view_returns (fx : filesystem_status) (paths : list string)
    (name r : string) :
  scan_resource_paths_view fx paths name "" = returns r ->
  r = "" \/
  exists before dir after,
    paths = (before ++ dir :: after)%list /\
    Forall (fun d => exists_ fx (fs_append (fs_answers fx) d name) = returns false)
           before /\
    r = fs_append (fs_answers fx) dir name /\
    exists_ fx r = returns true.
Proof.
  induction paths as [| path rest IH]; simpl; intros H.
  - left. injection H as H. symmetry. exact H.
  - destruct (exists_ fx (fs_append (fs_answers fx) path name)) as [[|] | p] eqn:E.
    + right. exists [], path, rest. injection H as H. subst r.
      split; [reflexivity |]. split; [constructor |]. split; [reflexivity | exact E].
    + destruct (IH H) as [Hr | (before & dir & after & Hp & Hb & Hr & He)];
        [left; exact Hr |].
      right. exists (path :: before), dir, after. subst rest.
      split; [reflexivity |]. split; [constructor; assumption |].
      split; assumption.
    + discriminate.
Qed.

(** What the relative branch does on any view: the name it looks up is
    [data file], whatever the view's own characters are. *)
Lemma find_file_view_relative_data
    (fx : filesystem_status) (resource_paths : list string) (file : string_view) :
  fs_is_absolute (fs_answers fx) (data file) = false ->
  (forall before dir after,
     resource_paths = (before ++ dir :: after)%list ->
     Forall (fun d => exists_ fx (fs_append (fs_answers fx) d (data file))
                      = returns false) before ->
     find_file_view fx resource_paths file
     = match exists_ fx (fs_append (fs_answers fx) dir (data file)) with
       | returns true => returns (fs_append (fs_answers fx) dir (data file))
       | returns false => scan_resource_paths_view fx after (data file) ""
       | throws p => throws p
       end) /\
  (Forall (fun d => exists_ fx (fs_append (fs_answers fx) d (data file))
                    = returns false) resource_paths ->
   find_file_view fx resource_paths file = returns "") /\
  ((forall d, In d resource_paths ->
      fs_errors fx (fs_append (fs_answers fx) d (data file)) = false) ->
   find_file_view fx resource_paths file
   = returns (first_directory_with (fs_answers fx) resource_paths (data file))).
Proof.
  intros Hrel. unfold find_file_view. rewrite Hrel. split; [| split].
  - intros before dir after -> Hbefore.
    rewrite (scan_view_skips fx before (dir :: after) _ Hbefore). reflexivity.
  - intros Hnone.
    rewrite <- (app_nil_r resource_paths).
    rewrite (scan_view_skips fx resource_paths [] _ Hnone). reflexivity.
  - intros Hok. rewrite (scan_view_no_errors fx _ _ Hok), scan_first_directory.
    reflexivity.
Qed.

(** C6 as stated fails, on two inputs.  A view of the first eight
    characters of a buffer that holds [logo.png.orig] names the relative
    file [logo.png], which exists under two registered directories, the
    first of them [/usr/share/app/]; [find_file] looks up
    [logo.png.orig] and returns the empty string.  And where a registered
    directory may not be searched, [find_file] leaves with the error of
    [fs::exists], for a file that a later directory has as for a file
    that no directory has: it returns neither a path nor the empty
    string. *)
Lemma find_file_view_not_first_directory :
  (fs_is_absolute (posix sample_files) (sv_chars sample_cut_view) = false /\
   first_directory_with (posix sample_files) sample_resource_paths
     (sv_chars sample_cut_view) = "/usr/share/app/logo.png" /\
   find_file_view (posix_status sample_files []) sample_resource_paths
     sample_cut_view = returns "") /\
  (fs_is_absolute (posix sample_files) "logo.png" = false /\
   nul_terminated (view_of "logo.png") = true /\
   first_directory_with (posix sample_files) sample_locked_paths "logo.png"
   = "/usr/share/app/logo.png" /\
   find_file_view (posix_status sample_files ["/srv/private"]) sample_locked_paths
     (view_of "logo.png") = throws "/srv/private/logo.png" /\
   Forall (fun d => fs_exists (posix sample_files) (posix_append d "missing.png")
                    = false) sample_locked_paths /\
   find_file_view (posix_status sample_files ["/srv/private"]) sample_locked_paths
     (view_of "missing.png") = throws "/srv/private/missing.png").
Proof.
  split.
  - repeat split; reflexivity.
  - split; [reflexivity |]. split; [reflexivity |]. split; [reflexivity |].
    split; [reflexivity |]. split; [| reflexivity].
    repeat constructor.
Qed.

(** C6, amended: for a relative file name that the view holds in full and
    NUL-terminated, [find_file] asks [fs::exists] for the name under each
    registered directory in order.  At the first directory whose answer
    is not [false], it returns the path of the name under that directory
    if the answer is [true], and leaves with the error if [fs::exists]
    raised one.  When the answer is [false] for every registered
    directory the result is the empty string, and when [fs::exists]
    raises no error the result is the path under the first registered
    directory that has the name, or the empty string. *)
Theorem find_file_view_relative
    (fx : filesystem_status) (resource_paths : list string) (file : string_view) :
  nul_terminated file = true ->
  fs_is_absolute (fs_answers fx) (sv_chars file) = false ->
  (forall before dir after,
     resource_paths = (before ++ dir :: after)%list ->
     Forall (fun d => exists_ fx (fs_append (fs_answers fx) d (sv_chars file))
                      = returns false) before ->
     (exists_ fx (fs_append (fs_answers fx) dir (sv_chars file)) = returns true ->
      find_file_view fx resource_paths file
      = returns (fs_append (fs_answers fx) dir (sv_chars file))) /\
     (forall p,
        exists_ fx (fs_append (fs_answers fx) dir (sv_chars file)) = throws p ->
        find_file_view fx resource_paths file = throws p)) /\
  (Forall (fun d => exists_ fx (fs_append (fs_answers fx) d (sv_chars file))
                    = returns false) resource_paths ->
   find_file_view fx resource_paths file = returns "") /\
  ((forall d, In d resource_paths ->
      fs_errors fx (fs_append (fs_answers fx) d (sv_chars file)) = false) ->
   find_file_view fx resource_paths file
   = returns (first_directory_with (fs_answers fx) resource_paths (sv_chars file))).
Proof.
  intros Hterm Hrel.
  rewrite <- (data_nul_terminated file Hterm) in *.
  destruct (find_file_view_relative_data fx resource_paths file Hrel)
    as (Hfirst & Hnone & Hok).
  split; [| split; assumption].
  intros before dir after Hpaths Hbefore.
  rewrite (Hfirst before dir after Hpaths Hbefore).
  split.
  - intros ->. reflexivity.
  - intros p ->. reflexivity.
Qed.

Lemma find_file_view_relative_witness :
  find_file_view (posix_status sample_files ["/srv/private"]) sample_resource_paths
    (view_of "logo.png") = returns "/usr/share/app/logo.png" /\
  find_file_view (posix_status sample_files ["/srv/private"]) sample_resource_paths
    (view_of "missing.png") = returns "" /\
  find_file_view (posix_status sample_files ["/srv/private"]) sample_locked_paths
    (view_of "logo.png") = throws "/srv/private/logo.png".
Proof.
  split; [| split].
  - destruct (find_file_view_relative
                (posix_status sample_files ["/srv/private"]) sample_resource_paths
                (view_of "logo.png") eq_refl eq_refl) as (H & _ & _).
    destruct (H ["/home/user/resources"] "/usr/share/app/" ["/opt/app"] eq_refl)
      as [Hfound _]; [repeat constructor |].
    apply Hfound. reflexivity.
  - destruct (find_file_view_relative
                (posix_status sample_files ["/srv/private"]) sample_resource_paths
                (view_of "missing.png") eq_refl eq_refl) as (_ & H & _).
    apply H. repeat constructor.
  - destruct (find_file_view_relative
                (posix_status sample_files ["/srv/private"]) sample_locked_paths
                (view_of "logo.png") eq_refl eq_refl) as (H & _ & _).
    destruct (H [] "/srv/private" ["/usr/share/app/"; "/opt/app"] eq_refl)
      as [_ Hthrown]; [constructor |].
    apply Hthrown. reflexivity.
Defined.

(** C8: for an absolute file name, [find_file] returns the empty string,
    whether or not the file exists: the branch asks whether the still
    empty result names a file, and never copies the input into it. *)
Theorem find_file_absolute_empty
    (fs : filesystem) (resource_paths : list string) (file : string) :
  fs_is_absolute fs file = true ->
  find_file fs resource_paths file = "".
Proof.
  intros Habs. unfold find_file. rewrite Habs, (fs_exists_empty fs). reflexivity.
Qed.

Lemma find_file_absolute_empty_witness :
  fs_is_absolute (posix sample_files) "/opt/app/logo.png" = true /\
  fs_exists (posix sample_files) "/opt/app/logo.png" = true /\
  find_file (posix sample_files) sample_resource_paths "/opt/app/logo.png" = "".
Proof.
  split; [reflexivity |]. split; [reflexivity |].
  apply (find_file_absolute_empty (posix sample_files)). reflexivity.
Defined.

Lemma exists_not_empty (fs : filesystem) (p : string) :
  fs_exists fs p = true -> String.eqb p "" = false.
Proof.
  intros H. destruct (String.eqb p "") eqn:E; [| reflexivity].
  apply String.eqb_eq in E. subst p. rewrite (fs_exists_empty fs) in H. discriminate.
Qed.

(** *** Further properties of [find_file] *)

(** On a view that holds its name in full, and where [fs::exists] raises
    no error, [find_file_view] is [find_file]. *)
Lemma find_file_view_find_file
    (fx : filesystem_status) (resource_paths : list string) (file : string_view) :
  nul_terminated file = true ->
  (forall p, fs_errors fx p = false) ->
  find_file_view fx resource_paths file
  = returns (find_file (fs_answers fx) resource_paths (sv_chars file)).
Proof.
  intros Hterm Hok. unfold find_file_view, find_file.
  rewrite (data_nul_terminated file Hterm), exists_empty.
  rewrite (fs_exists_empty (fs_answers fx)).
  destruct (fs_is_absolute (fs_answers fx) (sv_chars file)); [reflexivity |].
  apply scan_view_no_errors. intros d _. apply Hok.
Qed.

(** The absolute branch on any view: the name read by [data()] decides
    the branch, the result is empty, and no error is raised. *)
Lemma find_file_view_absolute
    (fx : filesystem_status) (resource_paths : list string) (file : string_view) :
  fs_is_absolute (fs_answers fx) (data file) = true ->
  find_file_view fx resource_paths file = returns "".
Proof.
  intros Habs. unfold find_file_view. rewrite Habs, exists_empty. reflexivity.
Qed.

(** Earlier directories shadow later ones on any view, and an error under
    an earlier directory ends the lookup. *)
Lemma find_file_view_app
    (fx : filesystem_status) (paths1 paths2 : list string) (file : string_view) :
  find_file_view fx (paths1 ++ paths2)%list file
  = match find_file_view fx paths1 file with
    | returns r => if String.eqb r "" then find_file_view fx paths2 file
                   else returns r
    | throws p => throws p
    end.
Proof.
  unfold find_file_view. destruct (fs_is_absolute (fs_answers fx) (data file)).
  - rewrite exists_empty. reflexivity.
  - induction paths1 as [| path rest IH]; simpl; [reflexivity |].
    destruct (exists_ fx (fs_append (fs_answers fx) path (data file)))
      as [[|] | p] eqn:E.
    + rewrite (exists_not_empty (fs_answers fx) _ (exists_true fx _ E)). reflexivity.
    + exact IH.
    + reflexivity.
Qed.

(** X4: [find_file] returns only what [fs::exists] accepted.  When it
    returns a string that is not empty, the name read by [file.data()] is
    relative and the string is the path of that name under a registered
    directory, on which [fs::exists] answered [true] after answering
    [false] under every directory registered before.  What [fs::exists]
    accepts may be a directory, as for the empty name, and need not lie
    inside the registered directory. *)
Theorem find_file_view_returns_probed
    (fx : filesystem_status) (resource_paths : list string) (file : string_view)
    (r : string) :
  find_file_view fx resource_paths file = returns r ->
  r = "" \/
  (fs_is_absolute (fs_answers fx) (data file) = false /\
   exists before dir after,
     resource_paths = (before ++ dir :: after)%list /\
     Forall (fun d => exists_ fx (fs_append (fs_answers fx) d (data file))
                      = returns false) before /\
     r = fs_append (fs_answers fx) dir (data file) /\
     exists_ fx r = returns true).
Proof.
  unfold find_file_view.
  destruct (fs_is_absolute (fs_answers fx) (data file)) eqn:Habs.
  - rewrite exists_empty. intros H. left. injection H as H. symmetry. exact H.
  - intros H. destruct (scan_view_returns fx resource_paths (data file) r H)
      as [Hr | Hr]; [left; exact Hr |].
    right. split; [reflexivity | exact Hr].
Qed.

Lemma find_file_view_returns_probed_witness :
  find_file_view (posix_status sample_tree []) sample_resource_paths (view_of "")
  = returns "/usr/share/app/" /\
  fs_is_absolute (posix sample_tree) (data (view_of "")) = false /\
  exists before dir after,
    sample_resource_paths = (before ++ dir :: after)%list /\
    Forall (fun d => exists_ (posix_status sample_tree [])
                       (posix_append d (data (view_of ""))) = returns false)
           before /\
    "/usr/share/app/" = posix_append dir (data (view_of "")) /\
    exists_ (posix_status sample_tree []) "/usr/share/app/" = returns true.
Proof.
  split; [reflexivity |].
  destruct (find_file_view_returns_probed
              (posix_status sample_tree []) sample_resource_paths (view_of "")
              "/usr/share/app/" eq_refl) as [H | H]; [discriminate H | exact H].
Defined.

(** The same on a name that leaves the registered directory. *)
Example find_file_view_leaves_directory :
  find_file_view (posix_status sample_tree []) sample_resource_paths
    (view_of "../../etc/passwd") = returns "/opt/app/../../etc/passwd".
Proof. reflexivity. Qed.

(** X5: directories registered earlier shadow those registered later.
    Looking a file up in two lists of directories, one after the other, is
    looking it up in the first list and, only if that gives the empty
    string, in the second. *)
Theorem find_file_app
    (fs : filesystem) (paths1 paths2 : list string) (file : string) :
  find_file fs (paths1 ++ paths2)%list file
  = if String.eqb (find_file fs paths1 file) ""
    then find_file fs paths2 file
    else find_file fs paths1 file.
Proof.
  unfold find_file. destruct (fs_is_absolute fs file).
  - rewrite (fs_exists_empty fs). reflexivity.
  - induction paths1 as [| path rest IH]; simpl; [reflexivity |].
    destruct (fs_exists fs (fs_append fs path file)) eqn:E.
    + rewrite (exists_not_empty fs _ E). reflexivity.
    + exact IH.
Qed.

End ResourcePathsFacts.

Module FontFacts.
Import Font.

(** Each [getline] call yields the head of [getline_all] and leaves a
    stream that yields its tail; the loop of [match] ends when [getline]
    fails. *)
Lemma getline_all_from (ch : ascii) (s : string) :
  getline_all (String ch s)
  = fst (getline_from (String ch s)) :: getline_all (snd (getline_from (String ch s))).
Proof.
  revert ch. induction s as [| ch' rest IH]; intros ch.
  - simpl. destruct (Ascii.eqb ch ","); reflexivity.
  - specialize (IH ch').
    change (getline_all (String ch (String ch' rest)))
      with (if Ascii.eqb ch ","
            then EmptyString :: getline_all (String ch' rest)
            else match getline_all (String ch' rest) with
                 | [] => [String ch EmptyString]
                 | family :: families => String ch family :: families
                 end).
    change (getline_from (String ch (String ch' rest)))
      with (if Ascii.eqb ch ","
            then (EmptyString, String ch' rest)
            else let '(family, rest') := getline_from (String ch' rest) in
                 (String ch family, rest')).
    destruct (Ascii.eqb ch ","); [reflexivity |].
    rewrite IH.
    destruct (getline_from (String ch' rest)) as [family left_over].
    reflexivity.
Qed.

Lemma getline_all_step (s : string) :
  match getline s with
  | Some (family, rest) => getline_all s = family :: getline_all rest
  | None => getline_all s = []
  end.
Proof.
  destruct s as [| ch rest]; [reflexivity |].
  unfold getline. rewrite getline_all_from.
  destruct (getline_from (String ch rest)) as [family left_over]. reflexivity.
Qed.

(** [trim] takes the white space off both ends, and nothing else. *)
Lemma ltrim_split (s : string) :
  exists l, s = (l ++ ltrim s)%string /\ all_space l = true /\
            starts_with_space (ltrim s) = false.
Proof.
  induction s as [| ch rest (l & Hl & Hsp & Hhead)]; [exists EmptyString; auto |].
  simpl. destruct (isspace ch) eqn:E.
  - exists (String ch l). simpl. rewrite E, Hsp.
    repeat split; [rewrite Hl at 1; reflexivity | exact Hhead].
  - exists EmptyString. simpl. auto.
Qed.

Lemma rtrim_split (s : string) :
  exists r, s = (rtrim s ++ r)%string /\ all_space r = true /\
            ends_with_space (rtrim s) = false.
Proof.
  induction s as [| ch rest (r & Hr & Hsp & Hlast)]; [exists EmptyString; auto |].
  simpl. destruct (rtrim rest) as [| c kept] eqn:K.
  - simpl in Hr. subst rest. destruct (isspace ch) eqn:E.
    + exists (String ch r). simpl. rewrite E, Hsp. auto.
    + exists r. simpl. auto.
  - exists r. repeat split; [rewrite Hr at 1; reflexivity | exact Hsp | exact Hlast].
Qed.

Lemma rtrim_keeps_head (s : string) :
  starts_with_space s = false -> starts_with_space (rtrim s) = false.
Proof.
  destruct s as [| ch rest]; [reflexivity |]. simpl. intros E.
  destruct (rtrim rest); [rewrite E |]; simpl; auto.
Qed.

(** X6: [trim] removes white space at the two ends and nothing else: the
    string is the trimmed string between two runs of white space, and the
    trimmed string neither starts nor ends with white space. *)
Lemma trim_spec (s : string) :
  exists l r, s = (l ++ trim s ++ r)%string /\
              all_space l = true /\ all_space r = true /\
              starts_with_space (trim s) = false /\
              ends_with_space (trim s) = false.
Proof.
  destruct (ltrim_split s) as (l & Hl & Hlsp & Hhead).
  destruct (rtrim_split (ltrim s)) as (r & Hr & Hrsp & Hlast).
  exists l, r. unfold trim. rewrite <- Hr.
  repeat split; auto using rtrim_keeps_head.
Qed.

Lemma to_int_range (b : uint8) : (0 <= to_int b <= 255)%Z.
Proof.
  unfold to_int. pose proof (Byte.to_N_bounded b) as H. lia.
Qed.

Lemma score_range (descr : font_descr) (item : font_entry) :
  (0 <= score descr item)%Q /\ (score descr item < 10000)%Q.
Proof.
  unfold score.
  pose proof (to_int_range (_weight descr)). pose proof (to_int_range (weight item)).
  pose proof (to_int_range (_slant descr)). pose proof (to_int_range (slant item)).
  pose proof (to_int_range (_stretch descr)). pose proof (to_int_range (stretch item)).
  set (w := Z.abs (to_int (_weight descr) - to_int (weight item))).
  set (s := Z.abs (to_int (_slant descr) - to_int (slant item))).
  set (t := Z.abs (to_int (_stretch descr) - to_int (stretch item))).
  assert (Hw : (0 <= inject_Z w)%Q /\ (inject_Z w <= 255)%Q).
  { split; [change 0%Q with (inject_Z 0) | change 255%Q with (inject_Z 255)];
      rewrite <- Zle_Qle; subst w; lia. }
  assert (Hs : (0 <= inject_Z s)%Q /\ (inject_Z s <= 255)%Q).
  { split; [change 0%Q with (inject_Z 0) | change 255%Q with (inject_Z 255)];
      rewrite <- Zle_Qle; subst s; lia. }
  assert (Ht : (0 <= inject_Z t)%Q /\ (inject_Z t <= 255)%Q).
  { split; [change 0%Q with (inject_Z 0) | change 255%Q with (inject_Z 255)];
      rewrite <- Zle_Qle; subst t; lia. }
  split; lra.
Qed.

Lemma Qlt_bool_true (a b : Q) : (a < b)%Q -> Qlt_bool a b = true.
Proof.
  intros H. unfold Qlt_bool. destruct (Qle_bool b a) eqn:E; [| reflexivity].
  apply Qle_bool_iff in E. lra.
Qed.

(** Once the inner loop holds a candidate it ends with one: the one it
    holds or a later item. *)
Lemma best_match_loop_some descr entries min e :
  exists e', snd (fold_left (best_match_step descr) entries (min, Some e)) = Some e'
             /\ (e' = e \/ In e' entries).
Proof.
  revert min e. induction entries as [| item rest IH]; intros min e; simpl.
  - exists e. auto.
  - destruct (Qlt_bool (score descr item) (inject_Z min)).
    + destruct (IH (double_to_int (score descr item)) item) as (e' & He' & [Heq | Hin]);
        exists e'; auto.
    + destruct (IH min e) as (e' & He' & [Heq | Hin]); exists e'; auto.
Qed.

(** A family with at least one entry always has a best match. *)
Lemma best_match_nonempty descr entries :
  entries <> [] -> exists e, best_match descr entries = Some e /\ In e entries.
Proof.
  destruct entries as [| item rest]; [congruence | intros _].
  unfold best_match. simpl.
  rewrite Qlt_bool_true by apply score_range.
  destruct (best_match_loop_some descr rest (double_to_int (score descr item)) item)
    as (e' & He' & [Heq | Hin]); exists e'; auto.
Qed.

Lemma match_families_skip m descr before rest :
  Forall (fun f => m !! trim f = None \/ m !! trim f = Some []) before ->
  match_families m descr (before ++ rest) = match_families m descr rest.
Proof.
  induction 1 as [| f before [Hf | Hf] _ IH]; simpl; [reflexivity | |];
    rewrite Hf; exact IH.
Qed.

Lemma match_families_none m descr families :
  (forall family, In family families -> m !! trim family = None) ->
  match_families m descr families = None.
Proof.
  intros H. rewrite <- (app_nil_r families).
  apply (match_families_skip m descr families []).
  apply List.Forall_forall. intros f Hf. left. apply H, Hf.
Qed.



(** C10: [match] takes the families of the description from left to
    right, trimmed.  The first one that the font map has with at least one
    entry decides: the result is the best match among that family's
    entries, so it is one of them, and neither the families listed after
    it nor what the font map holds for them has any influence. *)
Theorem match_first_family_decides
    (pf : platform) (m : font_map_type) (descr : font_descr)
    (before : list string) (family : string) (after : list string)
    (entries : list font_entry) :
  getline_all (_families descr) = before ++ family :: after ->
  Forall (fun f => ensure_font_map pf m !! trim f = None \/
                   ensure_font_map pf m !! trim f = Some []) before ->
  ensure_font_map pf m !! trim family = Some entries ->
  entries <> [] ->
  fst (match_ pf m descr) = best_match descr entries /\
  (exists e, fst (match_ pf m descr) = Some e /\ In e entries) /\
  (forall after' m',
     (forall f, In f (before ++ [family]) ->
        m' !! trim f = ensure_font_map pf m !! trim f) ->
     match_families m' descr (before ++ family :: after')
     = fst (match_ pf m descr)).
Proof.
  intros Hfam Hbefore Hlookup Hne.
  destruct (best_match_nonempty descr entries Hne) as (e & He & Hin).
  assert (Hres : fst (match_ pf m descr) = best_match descr entries).
  { unfold match_. simpl. rewrite Hfam, (match_families_skip _ _ _ _ Hbefore).
    simpl. rewrite Hlookup, He. reflexivity. }
  split; [exact Hres |]. split.
  - exists e. rewrite Hres. auto.
  - intros after' m' Hagree. rewrite Hres.
    rewrite match_families_skip.
    + simpl. rewrite (Hagree family), Hlookup, He; [reflexivity |].
      apply in_or_app. right. left. reflexivity.
    + apply List.Forall_forall. intros f Hf.
      rewrite (Hagree f) by (apply in_or_app; left; exact Hf).
      revert f Hf. apply List.Forall_forall. exact Hbefore.
Qed.

Lemma match_first_family_decides_witness :
  fst (match_ sample_platform ∅ (sample_descr "Mono, Serif ,Sans"))
  = Some serif_black /\
  (score (sample_descr "Mono, Serif ,Sans") sans_regular
   < score (sample_descr "Mono, Serif ,Sans") serif_black)%Q.
Proof.
  split; [| reflexivity].
  destruct (match_first_family_decides sample_platform ∅
              (sample_descr "Mono, Serif ,Sans")
              ["Mono"%string] " Serif "%string [ "Sans"%string ] [serif_black])
    as (H & _ & _).
  - reflexivity.
  - constructor; [left; vm_compute; reflexivity | constructor].
  - vm_compute. reflexivity.
  - discriminate.
  - rewrite H. reflexivity.
Defined.

(** *** Trimming and splitting *)

Lemma ltrim_id (s : string) : starts_with_space s = false -> ltrim s = s.
Proof.
  destruct s as [| ch rest]; [reflexivity |]. simpl. intros E. rewrite E. reflexivity.
Qed.

Lemma rtrim_id (s : string) : ends_with_space s = false -> rtrim s = s.
Proof.
  induction s as [| ch rest IH]; [reflexivity |].
  destruct rest as [| ch' rest'].
  - simpl. intros E. rewrite E. reflexivity.
  - intros E. change (ends_with_space (String ch' rest') = false) in E.
    specialize (IH E).
    change (rtrim (String ch (String ch' rest')))
      with (match rtrim (String ch' rest') with
            | EmptyString => if isspace ch then EmptyString else String ch EmptyString
            | kept => String ch kept
            end).
    rewrite IH. reflexivity.
Qed.

(** X7: [trim] is idempotent, and the strings it leaves alone are exactly
    those that neither start nor end with white space. *)
Theorem trim_fixed_points (s : string) :
  trim (trim s) = trim s /\
  (trim s = s <-> starts_with_space s = false /\ ends_with_space s = false).
Proof.
  assert (Hfix : forall t, starts_with_space t = false -> ends_with_space t = false ->
                           trim t = t).
  { intros t Hh Hl. unfold trim. rewrite (ltrim_id t Hh). apply rtrim_id, Hl. }
  assert (Hclean : starts_with_space (trim s) = false /\ ends_with_space (trim s) = false).
  { destruct (ltrim_split s) as (_ & _ & _ & Hhead).
    destruct (rtrim_split (ltrim s)) as (_ & _ & _ & Hlast).
    split; [apply rtrim_keeps_head, Hhead | exact Hlast]. }
  split.
  - apply Hfix; apply Hclean.
  - split.
    + intros E. rewrite <- E. exact Hclean.
    + intros [Hh Hl]. apply Hfix; assumption.
Qed.

Lemma getline_all_nil (s : string) : getline_all s = [] -> s = EmptyString.
Proof.
  destruct s as [| ch rest]; [reflexivity |]. simpl.
  destruct (Ascii.eqb ch ","); [discriminate |].
  destruct (getline_all rest); discriminate.
Qed.

Lemma join_commas_cons (family : string) (families : list string) :
  families <> [] ->
  join_commas (family :: families) = (family ++ "," ++ join_commas families)%string.
Proof.
  destruct families; [congruence | reflexivity].
Qed.

Lemma ends_with_comma_cons (ch : ascii) (s : string) :
  s <> EmptyString -> ends_with_comma (String ch s) = ends_with_comma s.
Proof.
  destruct s; [congruence | reflexivity].
Qed.

(** X8: the families that [match] reads off a family list account for
    every character of it.  No family contains a comma, and the families
    joined by commas are the list again, but for one comma at its very end,
    which yields no family of its own. *)
Theorem getline_all_join (s : string) :
  Forall (fun family => has_comma family = false) (getline_all s) /\
  s = (join_commas (getline_all s)
       ++ (if ends_with_comma s then "," else ""))%string.
Proof.
  induction s as [| ch rest [IHc IHj]]; [split; [constructor | reflexivity] |].
  simpl getline_all. destruct (Ascii.eqb ch ",") eqn:E.
  - apply Ascii.eqb_eq in E. subst ch. split; [constructor; [reflexivity | exact IHc] |].
    destruct (getline_all rest) as [| family families] eqn:G.
    + apply getline_all_nil in G. subst rest. reflexivity.
    + assert (Hne : rest <> EmptyString) by (intros ->; discriminate).
      rewrite (ends_with_comma_cons _ _ Hne).
      rewrite join_commas_cons by discriminate.
      rewrite IHj at 1. reflexivity.
  - destruct (getline_all rest) as [| family families] eqn:G.
    + apply getline_all_nil in G. subst rest.
      split; [constructor; [simpl; rewrite E; reflexivity | constructor] |].
      simpl. rewrite E. reflexivity.
    + assert (Hne : rest <> EmptyString) by (intros ->; discriminate).
      rewrite (ends_with_comma_cons _ _ Hne).
      inversion IHc as [| f fs Hf Hfs]; subst.
      split; [constructor; [simpl; rewrite E; exact Hf | exact Hfs] |].
      destruct families as [| family' families']; rewrite IHj at 1; reflexivity.
Qed.

(** *** The font map that [init_font_map] builds *)

Lemma trim_idempotent (s : string) : trim (trim s) = trim s.
Proof.
  destruct (ltrim_split s) as (_ & _ & _ & Hhead).
  destruct (rtrim_split (ltrim s)) as (_ & _ & _ & Hlast).
  unfold trim at 1. fold (trim s).
  rewrite ltrim_id by (apply rtrim_keeps_head, Hhead).
  apply rtrim_id. exact Hlast.
Qed.

Lemma add_font_lookup (m : font_map_type) family entry (key : string) :
  add_font m (family, entry) !! key
  = if String.eqb (trim family) key
    then Some (default [] (m !! key) ++ [entry])%list
    else m !! key.
Proof.
  unfold add_font. destruct (String.eqb (trim family) key) eqn:E.
  - apply String.eqb_eq in E. subst key.
    destruct (m !! trim family) as [entries |]; rewrite lookup_insert_eq; reflexivity.
  - apply String.eqb_neq in E.
    destruct (m !! trim family) as [entries |]; rewrite lookup_insert_ne; auto.
Qed.

Lemma fold_add_font_lookup (found : list (string * font_entry))
    (m : font_map_type) (key : string) :
  fold_left add_font found m !! key
  = match entries_of key found with
    | [] => m !! key
    | new => Some (default [] (m !! key) ++ new)%list
    end.
Proof.
  revert m. induction found as [| [family entry] rest IH]; intros m; [reflexivity |].
  change (fold_left add_font ((family, entry) :: rest) m)
    with (fold_left add_font rest (add_font m (family, entry))).
  rewrite IH, add_font_lookup.
  unfold entries_of. simpl List.filter.
  destruct (String.eqb (trim family) key); simpl.
  - fold (entries_of key rest).
    destruct (entries_of key rest) as [| e new]; simpl; [reflexivity |].
    rewrite <- app_assoc. reflexivity.
  - reflexivity.
Qed.

(** X9: [init_font_map] groups the fonts discovered by trimmed family name
    and loses none.  A family key for which fonts were discovered maps to
    the entries the map already had for it followed by the discovered ones in
    the order of discovery; any other key is left as it was. *)
Theorem init_font_map_lookup (pf : platform) (m : font_map_type) (key : string) :
  init_font_map pf m !! key
  = match entries_of key (discovered pf) with
    | [] => m !! key
    | new => Some (default [] (m !! key) ++ new)%list
    end.
Proof.
  apply fold_add_font_lookup.
Qed.

Lemma entries_of_in (key : string) (found : list (string * font_entry)) e :
  In e (entries_of key found) ->
  exists family, In (family, e) found /\ trim family = key.
Proof.
  unfold entries_of. intros H. apply in_map_iff in H.
  destruct H as ([family e'] & He & Hin). simpl in He. subst e'.
  apply List.filter_In in Hin. destruct Hin as [Hin Hk]. simpl in Hk.
  apply String.eqb_eq in Hk. exists family. auto.
Qed.

Lemma init_font_map_empty_lookup (pf : platform) (key : string) entries :
  init_font_map pf ∅ !! key = Some entries ->
  entries = entries_of key (discovered pf) /\ entries <> [].
Proof.
  unfold init_font_map. rewrite fold_add_font_lookup, lookup_empty.
  destruct (entries_of key (discovered pf)) as [| e new]; [discriminate |].
  simpl. intros H. injection H as <-. split; [reflexivity | discriminate].
Qed.

(** X10: in a font map initialised from scratch every family has at least
    one entry, every key is a trimmed name, and every entry was discovered
    under a family name that trims to its key. *)
Theorem init_font_map_families (pf : platform) (key : string)
    (entries : list font_entry) :
  init_font_map pf ∅ !! key = Some entries ->
  entries <> [] /\
  trim key = key /\
  (forall e, In e entries ->
     exists family, In (family, e) (discovered pf) /\ trim family = key).
Proof.
  intros H. apply init_font_map_empty_lookup in H. destruct H as [-> Hne].
  split; [exact Hne |]. split.
  - destruct (entries_of key (discovered pf)) as [| e new] eqn:E; [congruence |].
    destruct (entries_of_in key (discovered pf) e) as (family & _ & <-).
    + rewrite E. left. reflexivity.
    + apply trim_idempotent.
  - intros e. apply entries_of_in.
Qed.

Lemma init_font_map_families_witness :
  init_font_map sample_platform ∅ !! "Sans"%string = Some [sans_regular; sans_bold] /\
  trim "Sans" = "Sans"%string.
Proof.
  assert (H : init_font_map sample_platform ∅ !! "Sans"%string
              = Some [sans_regular; sans_bold]) by (vm_compute; reflexivity).
  split; [exact H |].
  destruct (init_font_map_families sample_platform "Sans" _ H) as (_ & Ht & _).
  exact Ht.
Defined.

(** *** Entries read from fontconfig patterns *)

Lemma to_int_u8 (n : N) : to_int (u8 n) = Z.of_N (n mod 256).
Proof.
  unfold to_int, u8. destruct (Byte.of_N (n mod 256)) as [b |] eqn:E.
  - apply Byte.to_of_N in E. rewrite E. reflexivity.
  - apply Byte.of_N_None_iff in E.
    pose proof (N.mod_lt n 256). lia.
Qed.

Lemma to_int_int_to_uint8 (z : Z) : to_int (int_to_uint8 z) = (z mod 256)%Z.
Proof.
  unfold int_to_uint8. rewrite to_int_u8.
  pose proof (Z.mod_pos_bound z 256).
  rewrite N.mod_small by lia. lia.
Qed.

(** X11: the normalisation of [init_font_map].  For a pattern whose slant
    lies in fontconfig's range 0 to 110 and whose width lies in 0 to 200,
    the entry's slant is the slant times 100 over 110, rounded down, its
    stretch is half the width, rounded down, and both lie between 0 and
    100. *)
Theorem entry_of_pattern_normalised
    (fc : entry_defaults) (font : fc_pattern) (family : string) (entry : font_entry)
    (slant_ width : Z) :
  entry_of_pattern fc font = Some (family, entry) ->
  fc_slant font = Some slant_ -> fc_width font = Some width ->
  (0 <= slant_ <= 110)%Z -> (0 <= width <= 200)%Z ->
  to_int (slant entry) = (slant_ * 100 / 110)%Z /\
  to_int (stretch entry) = (width / 2)%Z /\
  (0 <= to_int (slant entry) <= 100)%Z /\
  (0 <= to_int (stretch entry) <= 100)%Z.
Proof.
  intros H Hs Hw Rs Rw. unfold entry_of_pattern in H. rewrite Hs, Hw in H.
  destruct (fc_file font), (fc_family font), (fc_fullname font); try discriminate.
  injection H as _ <-. simpl.
  rewrite !to_int_int_to_uint8.
  rewrite !Z.quot_div_nonneg by lia.
  assert (E1 : (slant_ * 100 / 110 <= 100)%Z)
    by (apply Z.div_le_upper_bound; lia).
  assert (E2 : (0 <= slant_ * 100 / 110)%Z) by (apply Z.div_pos; lia).
  assert (E3 : (width * 100 / 200 = width / 2)%Z).
  { change 200%Z with (100 * 2)%Z.
    rewrite <- Z.div_div by lia. rewrite Z.div_mul by lia. reflexivity. }
  assert (E4 : (0 <= width / 2 <= 100)%Z).
  { split; [apply Z.div_pos; lia | apply Z.div_le_upper_bound; lia]. }
  rewrite E3. rewrite !Z.mod_small by lia. lia.
Qed.

Lemma entry_of_pattern_normalised_witness :
  exists entry,
    entry_of_pattern sample_defaults sample_italic = Some (" Sans "%string, entry) /\
    to_int (slant entry) = 90%Z /\ to_int (stretch entry) = 50%Z.
Proof.
  eexists. split; [reflexivity |].
  destruct (entry_of_pattern_normalised sample_defaults sample_italic
              " Sans "%string _ 100 100 eq_refl eq_refl eq_refl)
    as (Hs & Hw & _); [lia | lia |].
  split; [exact Hs | exact Hw].
Defined.

(** *** The best match within a family *)

Lemma Qlt_bool_spec (a b : Q) : Qlt_bool a b = true <-> (a < b)%Q.
Proof.
  unfold Qlt_bool. destruct (Qle_bool b a) eqn:E; simpl.
  - apply Qle_bool_iff in E. split; [discriminate | lra].
  - split; [intros _ | reflexivity].
    destruct (Qlt_le_dec a b) as [H | H]; [exact H |].
    apply Qle_bool_iff in H. congruence.
Qed.

Lemma score_quarters (descr : font_descr) (item : font_entry) :
  (score descr item == score4 descr item # 4)%Q.
Proof.
  unfold score, score4.
  set (w := Z.abs (to_int (_weight descr) - to_int (weight item))).
  set (s := Z.abs (to_int (_slant descr) - to_int (slant item))).
  set (t := Z.abs (to_int (_stretch descr) - to_int (stretch item))).
  clearbody w s t. unfold Qeq. cbn. lia.
Qed.

Lemma score4_range (descr : font_descr) (item : font_entry) :
  (0 <= score4 descr item < 40000)%Z.
Proof.
  unfold score4.
  pose proof (to_int_range (_weight descr)). pose proof (to_int_range (weight item)).
  pose proof (to_int_range (_slant descr)). pose proof (to_int_range (slant item)).
  pose proof (to_int_range (_stretch descr)). pose proof (to_int_range (stretch item)).
  lia.
Qed.

Lemma truncated_score_quarters (descr : font_descr) (item : font_entry) :
  truncated_score descr item = (score4 descr item / 4)%Z.
Proof.
  unfold truncated_score, double_to_int.
  pose proof (score_range descr item) as [Hpos _].
  pose proof (score_quarters descr item) as Hq.
  destruct (score descr item) as [n d].
  assert (Hnum : (0 <= n)%Z) by (unfold Qle in Hpos; simpl in Hpos; lia).
  simpl Qnum. simpl Qden.
  rewrite Z.quot_div_nonneg by (try exact Hnum; reflexivity).
  change (n / Z.pos d)%Z with (Qfloor (n # d)).
  rewrite (Qfloor_comp _ _ Hq). reflexivity.
Qed.

Lemma best_match_step_quarters (descr : font_descr) (min : Z)
    (best : option font_entry) (item : font_entry) :
  best_match_step descr (min, best) item
  = if (score4 descr item <? 4 * min)%Z
    then (truncated_score descr item, Some item)
    else (min, best).
Proof.
  unfold best_match_step. fold (truncated_score descr item).
  destruct (score4 descr item <? 4 * min)%Z eqn:E.
  - apply Z.ltb_lt in E.
    assert (H : Qlt_bool (score descr item) (inject_Z min) = true).
    { apply Qlt_bool_spec. rewrite score_quarters. unfold Qlt. simpl. lia. }
    rewrite H. reflexivity.
  - apply Z.ltb_ge in E.
    destruct (Qlt_bool (score descr item) (inject_Z min)) eqn:H; [| reflexivity].
    apply Qlt_bool_spec in H. rewrite score_quarters in H.
    unfold Qlt in H. simpl in H. lia.
Qed.

(** The inner loop from a candidate on: it ends with the first of the
    items of least truncated score. *)
Lemma best_match_loop_split (descr : font_descr) (rest : list font_entry) :
  forall (b : font_entry) (before mid : list font_entry),
    Forall (fun x => (truncated_score descr b < truncated_score descr x)%Z) before ->
    Forall (fun x => (truncated_score descr b <= truncated_score descr x)%Z) mid ->
    exists b' before' after',
      snd (fold_left (best_match_step descr) rest (truncated_score descr b, Some b))
      = Some b' /\
      (before ++ b :: mid ++ rest = before' ++ b' :: after')%list /\
      Forall (fun x => (truncated_score descr b' < truncated_score descr x)%Z) before' /\
      Forall (fun x => (truncated_score descr b' <= truncated_score descr x)%Z) after'.
Proof.
  induction rest as [| x rest IH]; intros b before mid Hbefore Hmid.
  - exists b, before, mid. rewrite app_nil_r. auto.
  - change (fold_left (best_match_step descr) (x :: rest)
              (truncated_score descr b, Some b))
      with (fold_left (best_match_step descr) rest
              (best_match_step descr (truncated_score descr b, Some b) x)).
    rewrite best_match_step_quarters.
    rewrite (truncated_score_quarters descr b).
    pose proof (score4_range descr x) as Rx.
    pose proof (score4_range descr b) as Rb.
    destruct (score4 descr x <? 4 * (score4 descr b / 4))%Z eqn:E.
    + apply Z.ltb_lt in E.
      assert (Hlt : (truncated_score descr x < truncated_score descr b)%Z).
      { rewrite !truncated_score_quarters.
        apply Z.div_lt_upper_bound; lia. }
      destruct (IH x (before ++ b :: mid)%list []) as (b' & before' & after' & H1 & H2 & H3 & H4).
      * apply Forall_app. split; [| constructor].
        -- eapply List.Forall_impl; [| exact Hbefore]. simpl. intros y Hy. lia.
        -- exact Hlt.
        -- eapply List.Forall_impl; [| exact Hmid]. simpl. intros y Hy. lia.
      * constructor.
      * exists b', before', after'. split; [exact H1 |]. split; [| auto].
        rewrite <- H2. rewrite <- app_assoc. reflexivity.
    + apply Z.ltb_ge in E.
      assert (Hle : (truncated_score descr b <= truncated_score descr x)%Z).
      { rewrite !truncated_score_quarters.
        apply Z.div_le_lower_bound; lia. }
      rewrite <- (truncated_score_quarters descr b).
      destruct (IH b before (mid ++ [x])%list) as (b' & before' & after' & H1 & H2 & H3 & H4).
      * exact Hbefore.
      * apply Forall_app. split; [exact Hmid | constructor; [exact Hle | constructor]].
      * exists b', before', after'. split; [exact H1 |]. split; [| auto].
        rewrite <- H2. rewrite <- app_assoc. reflexivity.
Qed.

Lemma best_match_split (descr : font_descr) (entries : list font_entry) :
  match best_match descr entries with
  | Some b =>
      exists before after,
        (entries = before ++ b :: after)%list /\
        Forall (fun x => (truncated_score descr b < truncated_score descr x)%Z) before /\
        Forall (fun x => (truncated_score descr b <= truncated_score descr x)%Z) after
  | None => entries = []
  end.
Proof.
  destruct entries as [| x rest]; [reflexivity |].
  unfold best_match.
  change (fold_left (best_match_step descr) (x :: rest) (10000%Z, None))
    with (fold_left (best_match_step descr) rest
            (best_match_step descr (10000%Z, None) x)).
  rewrite best_match_step_quarters.
  pose proof (score4_range descr x) as Rx.
  assert (E : (score4 descr x <? 4 * 10000)%Z = true) by (apply Z.ltb_lt; lia).
  rewrite E.
  destruct (best_match_loop_split descr rest x [] [])
    as (b' & before' & after' & H1 & H2 & H3 & H4); [constructor | constructor |].
  rewrite H1. exists before', after'. auto.
Qed.

(** X12: within a family, [match] settles on the first of the entries whose
    score, truncated to an integer, is least: every entry before it has a
    greater truncated score, no entry after it a smaller one.  Only an empty
    family has no best match. *)
Theorem best_match_first_least_truncated
    (descr : font_descr) (entries : list font_entry) :
  match best_match descr entries with
  | Some b =>
      exists before after,
        (entries = before ++ b :: after)%list /\
        Forall (fun x => (truncated_score descr b < truncated_score descr x)%Z) before /\
        Forall (fun x => (truncated_score descr b <= truncated_score descr x)%Z) after
  | None => entries = []
  end.
Proof.
  apply best_match_split.
Qed.

(** X13: the entry that [match] settles on need not have the least score,
    because the running minimum is stored as an integer; but its score is
    at most three quarters above the score of any entry of the family. *)
Theorem best_match_within_three_quarters
    (descr : font_descr) (entries : list font_entry) (b e : font_entry) :
  best_match descr entries = Some b ->
  In e entries ->
  (score descr b <= score descr e + (3 # 4))%Q.
Proof.
  intros Hb He.
  pose proof (best_match_split descr entries) as H. rewrite Hb in H.
  destruct H as (before & after & -> & Hbefore & Hafter).
  assert (Hle : (truncated_score descr b <= truncated_score descr e)%Z).
  { apply in_app_or in He. destruct He as [He | [<- | He]].
    - rewrite List.Forall_forall in Hbefore. specialize (Hbefore e He). lia.
    - lia.
    - rewrite List.Forall_forall in Hafter. exact (Hafter e He). }
  rewrite !truncated_score_quarters in Hle.
  rewrite !score_quarters. unfold Qle, Qplus. simpl.
  pose proof (Z.div_mod (score4 descr b) 4). pose proof (Z.mod_pos_bound (score4 descr b) 4).
  pose proof (Z.div_mod (score4 descr e) 4). pose proof (Z.mod_pos_bound (score4 descr e) 4).
  lia.
Qed.

Lemma best_match_within_three_quarters_witness :
  best_match (sample_descr "Sans") [sans_condensed; sans_regular] = Some sans_condensed /\
  (score (sample_descr "Sans") sans_regular == 0)%Q /\
  (score (sample_descr "Sans") sans_condensed == 3 # 4)%Q /\
  (score (sample_descr "Sans") sans_condensed
   <= score (sample_descr "Sans") sans_regular + (3 # 4))%Q.
Proof.
  assert (H : best_match (sample_descr "Sans") [sans_condensed; sans_regular]
              = Some sans_condensed) by reflexivity.
  split; [exact H |]. split; [reflexivity |]. split; [reflexivity |].
  apply (best_match_within_three_quarters _ _ _ _ H). right. left. reflexivity.
Defined.

(** *** What [match] returns, and when *)

Lemma best_match_some_in (descr : font_descr) (entries : list font_entry) e :
  best_match descr entries = Some e -> In e entries.
Proof.
  intros H. pose proof (best_match_split descr entries) as S. rewrite H in S.
  destruct S as (before & after & -> & _). apply in_or_app. right. left. reflexivity.
Qed.

Lemma best_match_none_nil (descr : font_descr) (entries : list font_entry) :
  best_match descr entries = None -> entries = [].
Proof.
  intros H. pose proof (best_match_split descr entries) as S. rewrite H in S. exact S.
Qed.

Lemma match_families_some (m : font_map_type) (descr : font_descr)
    (families : list string) (e : font_entry) :
  match_families m descr families = Some e ->
  exists before family after entries,
    (families = before ++ family :: after)%list /\
    Forall (fun f => m !! trim f = None \/ m !! trim f = Some []) before /\
    m !! trim family = Some entries /\
    best_match descr entries = Some e.
Proof.
  induction families as [| f rest IH]; simpl; [discriminate |].
  destruct (m !! trim f) as [entries |] eqn:L.
  - destruct (best_match descr entries) as [b |] eqn:B.
    + intros H. injection H as ->.
      exists [], f, rest, entries. repeat split; auto.
    + intros H. destruct (IH H) as (before & family & after & es & -> & Hb & Hl & He).
      exists (f :: before), family, after, es. repeat split; auto.
      constructor; [| exact Hb]. right. rewrite L.
      rewrite (best_match_none_nil descr entries B). reflexivity.
  - intros H. destruct (IH H) as (before & family & after & es & -> & Hb & Hl & He).
    exists (f :: before), family, after, es. repeat split; auto.
Qed.

(** X14: [match] never returns an entry of a family that the description
    does not list.  A result is the best match of the entries that the font
    map holds for one listed family, and every family listed before that one
    is absent from the font map (or has no entry). *)
Theorem match_result_of_listed_family
    (pf : platform) (m : font_map_type) (descr : font_descr) (e : font_entry) :
  fst (match_ pf m descr) = Some e ->
  exists before family after entries,
    (getline_all (_families descr) = before ++ family :: after)%list /\
    Forall (fun f => ensure_font_map pf m !! trim f = None \/
                     ensure_font_map pf m !! trim f = Some []) before /\
    ensure_font_map pf m !! trim family = Some entries /\
    best_match descr entries = Some e /\
    In e entries.
Proof.
  unfold match_. simpl. intros H.
  destruct (match_families_some _ _ _ _ H)
    as (before & family & after & entries & Hs & Hb & Hl & He).
  exists before, family, after, entries.
  repeat split; auto. apply (best_match_some_in descr entries e He).
Qed.

Lemma match_result_of_listed_family_witness :
  fst (match_ sample_platform ∅ (sample_descr "Mono, Sans ")) = Some sans_regular /\
  exists family,
    In family (getline_all "Mono, Sans ") /\
    In sans_regular (default [] (init_font_map sample_platform ∅ !! trim family)).
Proof.
  assert (H : fst (match_ sample_platform ∅ (sample_descr "Mono, Sans "))
              = Some sans_regular) by (vm_compute; reflexivity).
  split; [exact H |].
  destruct (match_result_of_listed_family _ _ _ _ H)
    as (before & family & after & entries & Hs & _ & Hl & _ & Hin).
  exists family. split.
  - change (getline_all "Mono, Sans ")
      with (getline_all (_families (sample_descr "Mono, Sans "))).
    rewrite Hs. apply in_or_app. right. left. reflexivity.
  - change (init_font_map sample_platform ∅) with (ensure_font_map sample_platform ∅).
    rewrite Hl. exact Hin.
Defined.

Lemma match_families_none_inv (m : font_map_type) (descr : font_descr)
    (families : list string) :
  (forall key entries, m !! key = Some entries -> entries <> []) ->
  match_families m descr families = None ->
  forall family, In family families -> m !! trim family = None.
Proof.
  intros Hinv. induction families as [| f rest IH]; simpl; [intros _ ? [] |].
  destruct (m !! trim f) as [entries |] eqn:L.
  - destruct (best_match_nonempty descr entries (Hinv _ _ L)) as (e & He & _).
    rewrite He. discriminate.
  - intros H family [<- | Hin]; [exact L | apply (IH H), Hin].
Qed.

Lemma ensure_font_map_empty (pf : platform) :
  ensure_font_map pf ∅ = init_font_map pf ∅.
Proof.
  unfold ensure_font_map. rewrite bool_decide_eq_true_2; reflexivity.
Qed.

(** X15: on a font map not yet initialised, [match] returns null exactly
    when none of the families that the description lists, trimmed, is a
    family of a discovered font. *)
Theorem match_null_iff_no_family_discovered (pf : platform) (descr : font_descr) :
  fst (match_ pf ∅ descr) = None <->
  (forall family, In family (getline_all (_families descr)) ->
     init_font_map pf ∅ !! trim family = None).
Proof.
  unfold match_. simpl. rewrite ensure_font_map_empty. split.
  - apply match_families_none_inv.
    intros key entries H. apply (init_font_map_empty_lookup pf key entries H).
  - apply match_families_none.
Qed.


Lemma init_font_map_empty_iff (pf : platform) :
  init_font_map pf ∅ = ∅ <-> discovered pf = [].
Proof.
  split.
  - intros H. destruct (discovered pf) as [| [family e] rest] eqn:D; [reflexivity |].
    apply (f_equal (fun fm : font_map_type => fm !! trim family)) in H.
    rewrite init_font_map_lookup, lookup_empty, D in H.
    unfold entries_of in H. simpl in H. rewrite String.eqb_refl in H.
    simpl in H. discriminate.
  - intros H. unfold init_font_map. rewrite H. reflexivity.
Qed.

(** X16: [match] runs [init_font_map] whenever it finds the font map
    empty, not once and for all.  A [match] that finds the map non-empty
    leaves it as it is and answers from it, whatever discovery would list
    by then.  A [match] leaves the map empty only when it found it empty
    and discovery listed no font; it then returns null, and the next
    [match] runs discovery again and answers from what discovery lists at
    that time. *)
Theorem match_initialises_while_empty
    (pf1 pf2 : platform) (m : font_map_type) (descr1 descr2 : font_descr) :
  (snd (match_ pf1 m descr1) <> ∅ ->
   match_ pf2 (snd (match_ pf1 m descr1)) descr2
   = (match_families (snd (match_ pf1 m descr1)) descr2
        (getline_all (_families descr2)),
      snd (match_ pf1 m descr1))) /\
  (snd (match_ pf1 m descr1) = ∅ <-> m = ∅ /\ discovered pf1 = []) /\
  (snd (match_ pf1 m descr1) = ∅ ->
   fst (match_ pf1 m descr1) = None /\
   match_ pf2 (snd (match_ pf1 m descr1)) descr2
   = (match_families (init_font_map pf2 ∅) descr2 (getline_all (_families descr2)),
      init_font_map pf2 ∅)).
Proof.
  unfold match_. simpl. split; [| split].
  - intros Hne. unfold ensure_font_map at 1 3.
    rewrite bool_decide_eq_false_2; [reflexivity | exact Hne].
  - unfold ensure_font_map. destruct (bool_decide (m = ∅)) eqn:E.
    + apply bool_decide_eq_true_1 in E. subst m.
      rewrite init_font_map_empty_iff. tauto.
    + apply bool_decide_eq_false_1 in E. tauto.
  - intros He. rewrite He. split.
    + apply match_families_none. intros family _. apply lookup_empty.
    + rewrite ensure_font_map_empty. reflexivity.
Qed.

Lemma match_initialises_while_empty_witness :
  (fst (match_ no_fonts_platform ∅ (sample_descr "Sans")) = None /\
   match_ sample_platform (snd (match_ no_fonts_platform ∅ (sample_descr "Sans")))
     (sample_descr "Sans")
   = (Some sans_regular, init_font_map sample_platform ∅)) /\
  match_ no_fonts_platform (snd (match_ sample_platform ∅ (sample_descr "Serif")))
    (sample_descr "Sans")
  = (Some sans_regular, init_font_map sample_platform ∅).
Proof.
  split.
  - destruct (match_initialises_while_empty no_fonts_platform sample_platform ∅
                (sample_descr "Sans") (sample_descr "Sans")) as (_ & _ & H).
    destruct (H eq_refl) as [Hnull Hnext]. split; [exact Hnull |].
    rewrite Hnext. reflexivity.
  - destruct (match_initialises_while_empty sample_platform no_fonts_platform ∅
                (sample_descr "Serif") (sample_descr "Sans")) as (H & _ & _).
    rewrite H; [reflexivity |].
    intros He.
    apply (f_equal (fun fm : font_map_type => fm !! "Sans")) in He.
    vm_compute in He. discriminate.
Defined.

(** *** The [font] constructor and the cache of faces *)

(** X17: a constructed font has the null handle in exactly two cases: no
    entry matches the description, or an entry matches, no face is cached
    under its full name, and the loader fails on it. *)
Theorem font_null_handle_iff
    (pf : platform) (st : font_state) (descr : font_descr) :
  _handle (fst (font_ctor pf st descr)) = None <->
  (fst (match_ pf (font_map st) descr) = None \/
   exists e, fst (match_ pf (font_map st) descr) = Some e /\
             cairo_font_map st !! full_name e = None /\
             load pf e = None).
Proof.
  unfold font_ctor.
  destruct (match_ pf (font_map st) descr) as [match_ptr fm]. simpl.
  destruct match_ptr as [e |].
  - destruct (cairo_font_map st !! full_name e) as [face |] eqn:C.
    + simpl. split; [discriminate |].
      intros [H | (e' & He & Hc & _)]; [discriminate |].
      injection He as <-. congruence.
    + destruct (load pf e) as [face |] eqn:L; simpl.
      * split; [discriminate |].
        intros [H | (e' & He & _ & Hl)]; [discriminate |].
        injection He as <-. congruence.
      * split; [| reflexivity]. intros _. right. exists e. auto.
  - simpl. split; [left |]; reflexivity.
Qed.


(** X19: the cache of faces only grows.  Constructing a font keeps every
    face that was cached under its name, and a font with a non-null handle
    leaves that handle cached under the full name of the matched entry. *)
Theorem font_ctor_cache
    (pf : platform) (st : font_state) (descr : font_descr) :
  (forall name face,
     cairo_font_map st !! name = Some face ->
     cairo_font_map (snd (font_ctor pf st descr)) !! name = Some face) /\
  (forall face,
     _handle (fst (font_ctor pf st descr)) = Some face ->
     exists e, fst (match_ pf (font_map st) descr) = Some e /\
               cairo_font_map (snd (font_ctor pf st descr)) !! full_name e
               = Some face) /\
  font_map (snd (font_ctor pf st descr)) = ensure_font_map pf (font_map st).
Proof.
  unfold font_ctor.
  destruct (match_ pf (font_map st) descr) as [match_ptr fm] eqn:M.
  assert (Hfm : fm = ensure_font_map pf (font_map st)).
  { unfold match_ in M. injection M as _ <-. reflexivity. }
  simpl fst. destruct match_ptr as [e |].
  - destruct (cairo_font_map st !! full_name e) as [face |] eqn:C.
    + simpl. split; [auto |]. split; [| exact Hfm].
      intros f H. injection H as <-. exists e. auto.
    + destruct (load pf e) as [face |] eqn:L; simpl.
      * split; [| split; [| exact Hfm]].
        -- intros name f H. rewrite lookup_insert_ne; [exact H |].
           intros <-. congruence.
        -- intros f H. injection H as <-. exists e.
           rewrite lookup_insert_eq. auto.
      * split; [auto |]. split; [discriminate | exact Hfm].
  - simpl. split; [auto |]. split; [discriminate | exact Hfm].
Qed.

(** *** Copies, moves and destruction of fonts *)

Lemma holders_empty (f : face) : holders f ∅ = 0%nat.
Proof.
  unfold holders. rewrite map_filter_empty. apply map_size_empty.
Qed.

Lemma holders_insert_fresh (f : face) (objs : gmap addr font) (a : addr) (o : font) :
  objs !! a = None ->
  holders f (<[a := o]> objs) = (holders f objs + holds o f)%nat.
Proof.
  intros Hfresh. unfold holders, holds.
  destruct (decide (_handle o = Some f)) as [H | H].
  - rewrite map_filter_insert_True by exact H.
    rewrite map_size_insert_None; [lia |].
    apply map_lookup_filter_None. left. exact Hfresh.
  - rewrite map_filter_insert_False by exact H.
    rewrite delete_id by exact Hfresh. lia.
Qed.

Lemma holders_insert (f : face) (objs : gmap addr font) (a : addr) (o : font) :
  holders f (<[a := o]> objs) = (holders f (delete a objs) + holds o f)%nat.
Proof.
  rewrite <- insert_delete_eq. apply holders_insert_fresh. apply lookup_delete_eq.
Qed.

Lemma holders_delete (f : face) (objs : gmap addr font) (a : addr) (o : font) :
  objs !! a = Some o ->
  holders f objs = (holders f (delete a objs) + holds o f)%nat.
Proof.
  intros H. rewrite <- (insert_delete_id objs a o H) at 1.
  apply holders_insert_fresh. apply lookup_delete_eq.
Qed.

Lemma holds_handle (o : font) (f : face) : holds (mk_font (_handle o)) f = holds o f.
Proof. reflexivity. Qed.

Lemma holds_some (g f : face) :
  holds (mk_font (Some g)) f = if decide (f = g) then 1%nat else 0%nat.
Proof.
  unfold holds. simpl. repeat case_decide; congruence.
Qed.

Lemma holds_none (f : face) : holds (mk_font None) f = 0%nat.
Proof.
  unfold holds. simpl.
  destruct (decide (@None face = Some f)) as [H | H]; [discriminate H | reflexivity].
Qed.

Lemma sample_world_balanced : balanced sample_elsewhere sample_world.
Proof.
  intros f. unfold sample_world, sample_elsewhere. simpl.
  rewrite !holders_insert_fresh by reflexivity.
  rewrite holders_empty, !holds_some.
  repeat case_decide; subst; try congruence; try reflexivity.
Qed.

Lemma font_copy_ctor_balanced (elsewhere : ref_counts) (w w' : world) this rhs :
  balanced elsewhere w -> objects w !! this = None ->
  font_copy_ctor this rhs w = Some w' -> balanced elsewhere w'.
Proof.
  intros Hbal Hfresh H. unfold font_copy_ctor in H.
  destruct (objects w !! rhs) as [r |] eqn:R; [| discriminate].
  destruct r as [[g |]]; simpl in H; injection H as <-; intros f; simpl;
    rewrite holders_insert_fresh by exact Hfresh; rewrite (Hbal f).
  - rewrite holds_some. case_decide; lia.
  - rewrite holds_none. lia.
Qed.

Lemma font_move_assign_balanced (elsewhere : ref_counts) (w w' : world) this rhs :
  balanced elsewhere w ->
  font_move_assign this rhs w = Some w' -> balanced elsewhere w'.
Proof.
  intros Hbal H. unfold font_move_assign in H.
  destruct (objects w !! this) as [t |] eqn:T; [| discriminate].
  destruct (objects w !! rhs) as [r |] eqn:R; [| discriminate].
  injection H as <-. intros f. simpl. rewrite (Hbal f). f_equal.
  rewrite holders_insert, holds_handle.
  destruct (decide (rhs = this)) as [-> | Hne].
  - rewrite delete_insert_eq. apply holders_delete. exact T.
  - rewrite delete_insert_ne by exact Hne.
    rewrite holders_insert, holds_handle.
    rewrite (holders_delete f (objects w) rhs r R).
    rewrite (holders_delete f (delete rhs (objects w)) this t)
      by (rewrite lookup_delete_ne by exact Hne; exact T).
    rewrite (delete_delete (objects w) this rhs). lia.
Qed.

Lemma font_dtor_balanced (elsewhere : ref_counts) (w w' : world) this :
  balanced elsewhere w ->
  font_dtor this w = Some w' -> balanced elsewhere w'.
Proof.
  intros Hbal H. unfold font_dtor in H.
  destruct (objects w !! this) as [t |] eqn:T; [| discriminate].
  injection H as <-. intros f. simpl.
  pose proof (holders_delete f (objects w) this t T) as Hd.
  pose proof (Hbal f) as Hf.
  destruct t as [[g |]]; simpl.
  - rewrite holds_some in Hd. unfold cairo_font_face_destroy.
    case_decide; lia.
  - rewrite holds_none in Hd. lia.
Qed.

Lemma font_move_ctor_balanced (elsewhere : ref_counts) (w w' : world) this rhs :
  balanced elsewhere w -> objects w !! this = None ->
  font_move_ctor None this rhs w = Some w' -> balanced elsewhere w'.
Proof.
  intros Hbal Hfresh H. unfold font_move_ctor in H.
  destruct (objects w !! rhs) as [r |] eqn:R; [| discriminate].
  injection H as <-. intros f. simpl. rewrite (Hbal f). f_equal.
  assert (Hne : rhs <> this) by (intros ->; congruence).
  rewrite holders_insert, holds_none.
  rewrite delete_insert_ne by exact Hne.
  rewrite holders_insert_fresh
    by (rewrite lookup_delete_ne by exact Hne; exact Hfresh).
  rewrite holds_handle.
  rewrite (holders_delete f (objects w) rhs r R). lia.
Qed.

(** X20: copying a font into a new object, move-assigning one font to
    another and destroying a font each keep the reference counts balanced:
    afterwards the count of every face is still the number of font objects
    holding it plus the references held elsewhere.  So does moving a font
    into a new object, if the handle of a new object starts out null. *)
Theorem font_lifetime_balanced (elsewhere : ref_counts) (w : world) :
  balanced elsewhere w ->
  (forall this rhs w',
     objects w !! this = None ->
     font_copy_ctor this rhs w = Some w' -> balanced elsewhere w') /\
  (forall this rhs w',
     font_move_assign this rhs w = Some w' -> balanced elsewhere w') /\
  (forall this w',
     font_dtor this w = Some w' -> balanced elsewhere w') /\
  (forall this rhs w',
     objects w !! this = None ->
     font_move_ctor None this rhs w = Some w' -> balanced elsewhere w').
Proof.
  intros Hbal. split; [| split; [| split]].
  - intros this rhs w'. apply font_copy_ctor_balanced, Hbal.
  - intros this rhs w'. apply font_move_assign_balanced, Hbal.
  - intros this w'. apply font_dtor_balanced, Hbal.
  - intros this rhs w'. apply font_move_ctor_balanced, Hbal.
Qed.

Lemma font_lifetime_balanced_witness :
  balanced sample_elsewhere sample_world /\
  exists w', font_dtor 1%positive sample_world = Some w' /\
             refs w' 7%positive = 1%nat /\
             balanced sample_elsewhere w'.
Proof.
  split; [exact sample_world_balanced |].
  eexists. split; [reflexivity |]. split; [reflexivity |].
  destruct (font_lifetime_balanced sample_elsewhere sample_world sample_world_balanced)
    as (_ & _ & H & _).
  apply (H 1%positive). reflexivity.
Defined.

(** X21: copy assignment takes a reference for the new handle but never
    gives up the one for the handle it overwrites.  Unless a font is
    assigned to itself, the face that the target held is left with a count
    one above the number of its holders plus the references held elsewhere;
    the counts of all other faces stay balanced. *)
Theorem font_copy_assign_keeps_old_reference
    (elsewhere : ref_counts) (w w' : world) (this rhs : addr) (t : font) :
  balanced elsewhere w ->
  objects w !! this = Some t ->
  font_copy_assign this rhs w = Some w' ->
  forall f,
    refs w' f
    = (holders f (objects w') + elsewhere f
       + (if decide (rhs = this) then 0 else holds t f))%nat.
Proof.
  intros Hbal T H f. unfold font_copy_assign in H. rewrite T in H.
  destruct (objects w !! rhs) as [r |] eqn:R; [| discriminate].
  destruct (decide (rhs = this)) as [-> | Hne].
  - injection H as <-. rewrite (Hbal f). lia.
  - pose proof (holders_delete f (objects w) this t T) as Hd.
    pose proof (Hbal f) as Hf.
    destruct r as [[g |]]; simpl in H; injection H as <-; simpl;
      rewrite holders_insert.
    + rewrite holds_some. case_decide; lia.
    + rewrite holds_none. lia.
Qed.

Lemma font_copy_assign_keeps_old_reference_witness :
  exists w',
    font_copy_assign 1%positive 2%positive sample_world = Some w' /\
    holders 7%positive (objects w') = 0%nat /\
    refs w' 7%positive = 2%nat /\
    sample_elsewhere 7%positive = 1%nat.
Proof.
  eexists. split; [reflexivity |].
  pose proof (font_copy_assign_keeps_old_reference sample_elsewhere sample_world _
                1%positive 2%positive (mk_font (Some 7%positive))
                sample_world_balanced eq_refl eq_refl 7%positive) as H.
  split; [vm_compute; reflexivity |]. split; [| reflexivity].
  rewrite H. vm_compute. reflexivity.
Defined.

(** *** The font directories *)


(** *** Programs over fonts keep the counts exact *)

Lemma cached_insert_fresh (f : face) (cache : cairo_font_map_type)
    (name : string) (g : face) :
  cache !! name = None ->
  cached f (<[name := g]> cache)
  = (cached f cache + (if decide (g = f) then 1 else 0))%nat.
Proof.
  intros Hfresh. unfold cached.
  destruct (decide (g = f)) as [H | H].
  - rewrite map_filter_insert_True by exact H.
    rewrite map_size_insert_None; [lia |].
    apply map_lookup_filter_None. left. exact Hfresh.
  - rewrite map_filter_insert_False by exact H.
    rewrite delete_id by exact Hfresh. lia.
Qed.

Lemma cached_none (f : face) (cache : cairo_font_map_type) :
  (forall name, cache !! name <> Some f) -> cached f cache = 0%nat.
Proof.
  intros H. unfold cached. apply map_size_empty_iff, map_empty. intros name.
  apply map_lookup_filter_None. right. intros g Hg Hf. simpl in Hf. subst g.
  exact (H name Hg).
Qed.

Lemma holders_none (f : face) (objs : gmap addr font) :
  (forall a o, objs !! a = Some o -> _handle o <> Some f) -> holders f objs = 0%nat.
Proof.
  intros H. unfold holders. apply map_size_empty_iff, map_empty. intros a.
  apply map_lookup_filter_None. right. intros o Ho Hf. exact (H a o Ho Hf).
Qed.

(** The constructor with the counts does to the font and to the two maps
    what the constructor does. *)
Lemma font_ctor_at_refines (pf : platform) (this : addr) (descr : font_descr)
    (w : world) (st : font_state) :
  snd (font_ctor_at pf this descr (w, st)) = snd (font_ctor pf st descr) /\
  objects (fst (font_ctor_at pf this descr (w, st)))
  = <[this := fst (font_ctor pf st descr)]> (objects w).
Proof.
  unfold font_ctor_at, font_ctor.
  destruct (match_ pf (font_map st) descr) as [[e |] fm]; [| split; reflexivity].
  destruct (cairo_font_map st !! full_name e) as [g |]; [split; reflexivity |].
  destruct (load pf e) as [g |]; split; reflexivity.
Qed.

Section Exact.
Variable pf : platform.
Hypothesis loader_new : loader_injective pf.

(** A face that the loader gives for an entry whose full name is not
    cached is held by no font and cached under no name. *)
Lemma loaded_face_fresh (w : world) (st : font_state) (e : font_entry) (g : face) :
  exact_counts pf (w, st) ->
  cairo_font_map st !! full_name e = None -> load pf e = Some g ->
  holders g (objects w) = 0%nat /\ cached g (cairo_font_map st) = 0%nat.
Proof.
  intros (_ & Hheld & Horigin) Hmiss Hload.
  assert (Hnot : forall name, cairo_font_map st !! name <> Some g).
  { intros name Hname. destruct (Horigin name g Hname) as (e' & <- & Hload').
    rewrite (loader_new e' e g Hload' Hload) in Hname. congruence. }
  split; [| apply cached_none, Hnot].
  apply holders_none. intros a [h] Ho Hh. simpl in Hh. subst h.
  destruct (Hheld a g Ho) as (name & Hname). exact (Hnot name Hname).
Qed.

Lemma font_ctor_at_exact (this : addr) (descr : font_descr)
    (w : world) (st : font_state) :
  exact_counts pf (w, st) -> objects w !! this = None ->
  exact_counts pf (font_ctor_at pf this descr (w, st)).
Proof.
  intros Hex Hfresh.
  pose proof Hex as (Hbal & Hheld & Horigin).
  assert (Hnull : forall fm,
            exact_counts pf (mk_world (<[this := mk_font None]> (objects w)) (refs w),
                             mk_font_state fm (cairo_font_map st))).
  { intros fm. split; [| split]; simpl.
    - intros f. rewrite holders_insert_fresh by exact Hfresh.
      rewrite holds_none, (Hbal f). lia.
    - intros a f Ha. destruct (decide (a = this)) as [-> | Hne].
      + rewrite lookup_insert_eq in Ha. discriminate.
      + rewrite lookup_insert_ne in Ha by auto. exact (Hheld a f Ha).
    - exact Horigin. }
  unfold font_ctor_at.
  destruct (match_ pf (font_map st) descr) as [[e |] fm]; [| apply Hnull].
  destruct (cairo_font_map st !! full_name e) as [g |] eqn:C.
  - (* a face from the cache *)
    split; [| split]; simpl.
    + intros f. rewrite holders_insert_fresh by exact Hfresh.
      rewrite holds_some, (Hbal f). case_decide; lia.
    + intros a f Ha. destruct (decide (a = this)) as [-> | Hne].
      * rewrite lookup_insert_eq in Ha. injection Ha as <-. eauto.
      * rewrite lookup_insert_ne in Ha by auto. exact (Hheld a f Ha).
    + exact Horigin.
  - destruct (load pf e) as [g |] eqn:L; [| apply Hnull].
    (* a face from the loader *)
    destruct (loaded_face_fresh w st e g Hex C L) as [Hh Hc].
    split; [| split]; simpl.
    + intros f. rewrite holders_insert_fresh by exact Hfresh.
      rewrite cached_insert_fresh by exact C.
      rewrite holds_some.
      destruct (decide (f = g)) as [-> | Hne].
      * rewrite Hh, Hc. repeat case_decide; try congruence. reflexivity.
      * rewrite (Hbal f). repeat case_decide; try congruence. lia.
    + intros a f Ha. destruct (decide (a = this)) as [-> | Hne].
      * rewrite lookup_insert_eq in Ha. injection Ha as <-.
        exists (full_name e). apply lookup_insert_eq.
      * rewrite lookup_insert_ne in Ha by auto.
        destruct (Hheld a f Ha) as (name & Hname). exists name.
        rewrite lookup_insert_ne; [exact Hname |]. intros <-. congruence.
    + intros name f Hname. destruct (decide (name = full_name e)) as [-> | Hne].
      * rewrite lookup_insert_eq in Hname. injection Hname as <-. eauto.
      * rewrite lookup_insert_ne in Hname by auto. exact (Horigin name f Hname).
Qed.

(** The handles of the fonts after a copy, a move or a destruction were
    handles of fonts before. *)
Lemma font_copy_ctor_held (w w' : world) this rhs a f :
  font_copy_ctor this rhs w = Some w' ->
  objects w' !! a = Some (mk_font (Some f)) ->
  exists a', objects w !! a' = Some (mk_font (Some f)).
Proof.
  unfold font_copy_ctor. destruct (objects w !! rhs) as [r |] eqn:R; [| discriminate].
  destruct r as [[g |]]; simpl; intros H; injection H as <-; simpl; intros Ha;
    (destruct (decide (a = this)) as [-> | Hne];
     [rewrite lookup_insert_eq in Ha | rewrite lookup_insert_ne in Ha by auto; eauto]).
  - injection Ha as <-. eauto.
  - discriminate.
Qed.

Lemma font_move_ctor_held (w w' : world) this rhs a f :
  font_move_ctor None this rhs w = Some w' ->
  objects w' !! a = Some (mk_font (Some f)) ->
  exists a', objects w !! a' = Some (mk_font (Some f)).
Proof.
  unfold font_move_ctor. destruct (objects w !! rhs) as [r |] eqn:R; [| discriminate].
  intros H. injection H as <-. simpl. intros Ha.
  destruct (decide (a = rhs)) as [-> | Hne].
  - rewrite lookup_insert_eq in Ha. discriminate.
  - rewrite lookup_insert_ne in Ha by auto.
    destruct (decide (a = this)) as [-> | Hne'].
    + rewrite lookup_insert_eq in Ha. destruct r as [h]. simpl in Ha.
      injection Ha as ->. eauto.
    + rewrite lookup_insert_ne in Ha by auto. eauto.
Qed.

Lemma font_move_assign_held (w w' : world) this rhs a f :
  font_move_assign this rhs w = Some w' ->
  objects w' !! a = Some (mk_font (Some f)) ->
  exists a', objects w !! a' = Some (mk_font (Some f)).
Proof.
  unfold font_move_assign.
  destruct (objects w !! this) as [t |] eqn:T; [| discriminate].
  destruct (objects w !! rhs) as [r |] eqn:R; [| discriminate].
  intros H. injection H as <-. simpl. intros Ha.
  destruct (decide (a = rhs)) as [-> | Hne].
  - rewrite lookup_insert_eq in Ha. destruct t as [h]. simpl in Ha.
    injection Ha as ->. eauto.
  - rewrite lookup_insert_ne in Ha by auto.
    destruct (decide (a = this)) as [-> | Hne'].
    + rewrite lookup_insert_eq in Ha. destruct r as [h]. simpl in Ha.
      injection Ha as ->. eauto.
    + rewrite lookup_insert_ne in Ha by auto. eauto.
Qed.

Lemma font_dtor_held (w w' : world) this a f :
  font_dtor this w = Some w' ->
  objects w' !! a = Some (mk_font (Some f)) ->
  exists a', objects w !! a' = Some (mk_font (Some f)).
Proof.
  unfold font_dtor. destruct (objects w !! this) as [t |] eqn:T; [| discriminate].
  intros H. injection H as <-. simpl. intros Ha.
  apply lookup_delete_Some in Ha. destruct Ha as [_ Ha]. eauto.
Qed.

Lemma exact_counts_world (w w' : world) (st : font_state) :
  exact_counts pf (w, st) ->
  balanced (fun f => cached f (cairo_font_map st)) w' ->
  (forall a f, objects w' !! a = Some (mk_font (Some f)) ->
     exists a', objects w !! a' = Some (mk_font (Some f))) ->
  exact_counts pf (w', st).
Proof.
  intros (Hbal & Hheld & Horigin) Hbal' Hfrom. split; [exact Hbal' | split].
  - intros a f Ha. destruct (Hfrom a f Ha) as (a' & Ha'). exact (Hheld a' f Ha').
  - exact Horigin.
Qed.

Lemma run_op_exact (op : font_op) (s s' : world * font_state) :
  exact_counts pf s -> run_op pf op s = Some s' -> exact_counts pf s'.
Proof.
  destruct s as [w st]. intros Hex H.
  assert (Hbal : balanced (fun f => cached f (cairo_font_map st)) w).
  { destruct Hex as (Hbal & _). exact Hbal. }
  destruct op as [this descr | this rhs | this rhs | this rhs | this]; simpl in H.
  - destruct (objects w !! this) eqn:T; [discriminate |].
    injection H as <-. apply font_ctor_at_exact; assumption.
  - destruct (objects w !! this) eqn:T; [discriminate |].
    destruct (font_copy_ctor this rhs w) as [w' |] eqn:E; [| discriminate].
    injection H as <-. apply (exact_counts_world w w' st Hex).
    + exact (font_copy_ctor_balanced _ w w' this rhs Hbal T E).
    + intros a f. apply (font_copy_ctor_held w w' this rhs a f E).
  - destruct (objects w !! this) eqn:T; [discriminate |].
    destruct (font_move_ctor None this rhs w) as [w' |] eqn:E; [| discriminate].
    injection H as <-. apply (exact_counts_world w w' st Hex).
    + exact (font_move_ctor_balanced _ w w' this rhs Hbal T E).
    + intros a f. apply (font_move_ctor_held w w' this rhs a f E).
  - destruct (font_move_assign this rhs w) as [w' |] eqn:E; [| discriminate].
    injection H as <-. apply (exact_counts_world w w' st Hex).
    + exact (font_move_assign_balanced _ w w' this rhs Hbal E).
    + intros a f. apply (font_move_assign_held w w' this rhs a f E).
  - destruct (font_dtor this w) as [w' |] eqn:E; [| discriminate].
    injection H as <-. apply (exact_counts_world w w' st Hex).
    + exact (font_dtor_balanced _ w w' this Hbal E).
    + intros a f. apply (font_dtor_held w w' this a f E).
Qed.

Lemma run_ops_exact (ops : list font_op) (s s' : world * font_state) :
  exact_counts pf s -> run_ops pf ops s = Some s' -> exact_counts pf s'.
Proof.
  revert s. induction ops as [| op rest IH]; intros s Hex H; simpl in H.
  - injection H as <-. exact Hex.
  - destruct (run_op pf op s) as [s1 |] eqn:E; [| discriminate].
    apply (IH s1); [apply (run_op_exact op s s1 Hex E) | exact H].
Qed.

Lemma initial_exact (fm : font_map_type) : exact_counts pf (initial fm).
Proof.
  split; [| split]; simpl.
  - intros f. rewrite holders_empty. unfold cached.
    rewrite map_filter_empty, map_size_empty. reflexivity.
  - intros a f Ha. rewrite lookup_empty in Ha. discriminate.
  - intros name f Hname. rewrite lookup_empty in Hname. discriminate.
Qed.

End Exact.

Lemma named_loader_injective : loader_injective sample_named_platform.
Proof.
  intros e e' f. simpl. unfold named_loader.
  destruct (String.eqb (full_name e) "Sans Regular") eqn:E1;
    destruct (String.eqb (full_name e') "Sans Regular") eqn:E1';
    destruct (String.eqb (full_name e) "Serif Black") eqn:E2;
    destruct (String.eqb (full_name e') "Serif Black") eqn:E2';
    intros H H'; try congruence;
    repeat match goal with
           | E : String.eqb _ _ = true |- _ => apply String.eqb_eq in E
           end; congruence.
Qed.

(** X23: constructing a font keeps the counts exact.  When every face that
    the loader creates is a new one, a construction at an address that holds
    no font leaves the count of every face equal to the number of fonts
    holding it plus the number of names it is cached under; a face created
    by the loader ends with two references, the font's and the cache's.  The
    font and the two maps are those of the constructor. *)
Theorem font_ctor_keeps_counts_exact
    (pf : platform) (this : addr) (descr : font_descr) (w : world) (st : font_state) :
  loader_injective pf ->
  exact_counts pf (w, st) ->
  objects w !! this = None ->
  exact_counts pf (font_ctor_at pf this descr (w, st)) /\
  snd (font_ctor_at pf this descr (w, st)) = snd (font_ctor pf st descr) /\
  objects (fst (font_ctor_at pf this descr (w, st))) !! this
  = Some (fst (font_ctor pf st descr)).
Proof.
  intros Hinj Hex Hfresh.
  destruct (font_ctor_at_refines pf this descr w st) as [Hst Hobj].
  split; [apply font_ctor_at_exact; assumption |].
  split; [exact Hst |]. rewrite Hobj. apply lookup_insert_eq.
Qed.

Lemma font_ctor_keeps_counts_exact_witness :
  loader_injective sample_named_platform /\
  exact_counts sample_named_platform (initial ∅) /\
  refs (fst (font_ctor_at sample_named_platform 1%positive (sample_descr "Sans")
               (initial ∅))) 1%positive = 2%nat /\
  exact_counts sample_named_platform
    (font_ctor_at sample_named_platform 1%positive (sample_descr "Sans") (initial ∅)).
Proof.
  split; [exact named_loader_injective |].
  split; [apply initial_exact |].
  split; [vm_compute; reflexivity |].
  apply (font_ctor_keeps_counts_exact sample_named_platform 1%positive
           (sample_descr "Sans") (mk_world ∅ (fun _ => 0%nat)) (mk_font_state ∅ ∅)).
  - exact named_loader_injective.
  - apply initial_exact.
  - reflexivity.
Defined.

(** X24: no program that constructs, copies, moves and destroys fonts, and
    never copy-assigns one, gets the counts wrong.  Starting with no font
    and an empty cache, after any such program the count of every face is
    the number of fonts holding it plus the number of names it is cached
    under, every face held is cached, and once all fonts are destroyed the
    references left are exactly those of the cache.  A font made by the
    move constructor is taken to start with the null handle. *)
Theorem font_programs_keep_counts_exact
    (pf : platform) (fm : font_map_type) (ops : list font_op)
    (w : world) (st : font_state) :
  loader_injective pf ->
  run_ops pf ops (initial fm) = Some (w, st) ->
  exact_counts pf (w, st) /\
  (objects w = ∅ -> forall f, refs w f = cached f (cairo_font_map st)).
Proof.
  intros Hinj Hrun.
  assert (Hex : exact_counts pf (w, st)).
  { apply (run_ops_exact pf Hinj ops (initial fm)); [apply initial_exact | exact Hrun]. }
  split; [exact Hex |].
  intros Hempty f. destruct Hex as (Hbal & _).
  rewrite (Hbal f), Hempty, holders_empty. reflexivity.
Qed.

Lemma font_programs_keep_counts_exact_witness :
  loader_injective sample_named_platform /\
  exists w st,
    run_ops sample_named_platform sample_program (initial ∅) = Some (w, st) /\
    objects w = ∅ /\
    refs w 1%positive = 1%nat /\ refs w 2%positive = 1%nat /\
    cached 1%positive (cairo_font_map st) = 1%nat.
Proof.
  split; [exact named_loader_injective |].
  destruct (run_ops sample_named_platform sample_program (initial ∅))
    as [[w st] |] eqn:R; [| vm_compute in R; discriminate].
  exists w, st. split; [reflexivity |].
  destruct (font_programs_keep_counts_exact sample_named_platform ∅ sample_program
              w st named_loader_injective R) as [_ Hrefs].
  assert (Hw : objects w = ∅ /\ refs w 1%positive = 1%nat /\ refs w 2%positive = 1%nat).
  { vm_compute in R. injection R as <- <-. repeat split; reflexivity. }
  destruct Hw as (He & H1 & H2).
  split; [exact He |]. split; [exact H1 |]. split; [exact H2 |].
  rewrite <- (Hrefs He 1%positive). exact H1.
Defined.

Lemma cleanup_counts (refs0 : ref_counts) (cache : cairo_font_map_type) (f : face) :
  map_fold (fun (_ : string) (g : face) (r : ref_counts) =>
              cairo_font_face_destroy g r) refs0 cache f
  = (refs0 f - cached f cache)%nat.
Proof.
  revert f.
  apply (map_fold_weak_ind
           (fun (r : ref_counts) (m : cairo_font_map_type) =>
              forall f, r f = (refs0 f - cached f m)%nat)).
  - intros f. unfold cached. rewrite map_filter_empty, map_size_empty. lia.
  - intros name g m r Hfresh IH f.
    rewrite cached_insert_fresh by exact Hfresh.
    unfold cairo_font_face_destroy. rewrite (IH f).
    repeat case_decide; try congruence; lia.
Qed.

(** X25: the cleanup at the end of the process gives back exactly the
    references of the cache.  After any program that never copy-assigns a
    font, cleanup leaves every face with one reference for each font still
    holding it; if all fonts were destroyed, no face keeps a reference, and
    the cache is empty.  A font made by the move constructor is taken to
    start with the null handle. *)
Theorem cleanup_releases_cached_faces
    (pf : platform) (fm : font_map_type) (ops : list font_op)
    (w : world) (st : font_state) :
  loader_injective pf ->
  run_ops pf ops (initial fm) = Some (w, st) ->
  (forall f, refs (fst (cleanup (w, st))) f = holders f (objects w)) /\
  (objects w = ∅ -> forall f, refs (fst (cleanup (w, st))) f = 0%nat) /\
  cairo_font_map (snd (cleanup (w, st))) = ∅.
Proof.
  intros Hinj Hrun.
  assert (Hex : exact_counts pf (w, st)).
  { apply (run_ops_exact pf Hinj ops (initial fm)); [apply initial_exact | exact Hrun]. }
  destruct Hex as (Hbal & _).
  assert (H : forall f, refs (fst (cleanup (w, st))) f = holders f (objects w)).
  { intros f. simpl. rewrite cleanup_counts, (Hbal f). lia. }
  split; [exact H |]. split; [| reflexivity].
  intros Hempty f. rewrite (H f), Hempty. apply holders_empty.
Qed.

Lemma cleanup_releases_cached_faces_witness :
  loader_injective sample_named_platform /\
  exists w st,
    run_ops sample_named_platform sample_program (initial ∅) = Some (w, st) /\
    refs w 1%positive = 1%nat /\
    refs (fst (cleanup (w, st))) 1%positive = 0%nat.
Proof.
  split; [exact named_loader_injective |].
  destruct (run_ops sample_named_platform sample_program (initial ∅))
    as [[w st] |] eqn:R; [| vm_compute in R; discriminate].
  exists w, st. split; [reflexivity |].
  destruct (cleanup_releases_cached_faces sample_named_platform ∅ sample_program
              w st named_loader_injective R) as (_ & Hzero & _).
  assert (Hw : objects w = ∅ /\ refs w 1%positive = 1%nat).
  { vm_compute in R. injection R as <- <-. split; reflexivity. }
  destruct Hw as [He H1].
  split; [exact H1 | exact (Hzero He 1%positive)].
Defined.

End FontFacts.

Module TileFacts.
Import Tile.
Local Open Scope Q_scope.

(** *** Comparisons and sums of rationals *)

Lemma Qlt_bool_iff (a b : Q) : Qlt_bool a b = true <-> a < b.
Proof.
  unfold Qlt_bool. destruct (Qle_bool b a) eqn:E; simpl.
  - apply Qle_bool_iff in E. split; [discriminate | lra].
  - split; [intros _ | reflexivity].
    destruct (Qlt_le_dec a b) as [H | H]; [exact H |].
    apply Qle_bool_iff in H. congruence.
Qed.

Lemma Qlt_bool_false_iff (a b : Q) : Qlt_bool a b = false <-> b <= a.
Proof.
  split; intros H.
  - destruct (Qlt_le_dec a b) as [L | L]; [| exact L].
    apply Qlt_bool_iff in L. congruence.
  - destruct (Qlt_bool a b) eqn:E; [| reflexivity].
    apply Qlt_bool_iff in E. lra.
Qed.

Section Sums.
Context {A : Type}.
Implicit Types (f g : A -> Q) (l : list A).

Lemma Qsum_map_eq f g l :
  (forall x, In x l -> f x == g x) -> Qsum (map f l) == Qsum (map g l).
Proof.
  induction l as [| a l IH]; intros H; simpl; [reflexivity |].
  assert (Ha : f a == g a) by (apply H; left; reflexivity).
  assert (Hl : Qsum (map f l) == Qsum (map g l))
    by (apply IH; intros x Hx; apply H; right; exact Hx).
  lra.
Qed.

Lemma Qsum_map_le f g l :
  (forall x, In x l -> f x <= g x) -> Qsum (map f l) <= Qsum (map g l).
Proof.
  induction l as [| a l IH]; intros H; simpl; [lra |].
  assert (Ha : f a <= g a) by (apply H; left; reflexivity).
  assert (Hl : Qsum (map f l) <= Qsum (map g l))
    by (apply IH; intros x Hx; apply H; right; exact Hx).
  lra.
Qed.

Lemma Qsum_map_nonneg f l :
  (forall x, In x l -> 0 <= f x) -> 0 <= Qsum (map f l).
Proof.
  induction l as [| a l IH]; intros H; simpl; [lra |].
  assert (Ha : 0 <= f a) by (apply H; left; reflexivity).
  assert (Hl : 0 <= Qsum (map f l))
    by (apply IH; intros x Hx; apply H; right; exact Hx).
  lra.
Qed.

Lemma Qsum_map_plus f g l :
  Qsum (map (fun x => f x + g x) l) == Qsum (map f l) + Qsum (map g l).
Proof.
  induction l as [| a l IH]; simpl; lra.
Qed.

Lemma Qsum_map_scale (k : Q) f l :
  Qsum (map (fun x => k * f x) l) == k * Qsum (map f l).
Proof.
  induction l as [| a l IH]; simpl; [lra |]. rewrite IH. ring.
Qed.
End Sums.

Lemma share_zero (slack W stretch : Q) :
  stretch == 0 -> slack * stretch / W == 0.
Proof.
  intros H. unfold Qdiv. rewrite H. ring.
Qed.

Lemma share_nonneg (slack W stretch : Q) :
  0 <= slack -> 0 < W -> 0 <= stretch -> 0 <= slack * stretch / W.
Proof.
  intros Hs HW Ht. unfold Qdiv.
  apply Qmult_le_0_compat; [apply Qmult_le_0_compat; assumption |].
  apply Qinv_le_0_compat. lra.
Qed.

(** *** One round *)

Section Round.
Variables slack W : Q.
Hypothesis slack_nonneg : 0 <= slack.
Hypothesis W_pos : 0 < W.

Lemma settle_info (s : slot) : info (settle slack W s) = info s.
Proof.
  unfold settle. destruct (clamped s); [reflexivity |].
  destruct (Qlt_bool _ _); reflexivity.
Qed.

Lemma settle_clamped (s : slot) :
  clamped (settle slack W s) = clamped s || over slack W s.
Proof.
  unfold settle, over. destruct (clamped s) eqn:C; simpl; [exact C |].
  destruct (Qlt_bool _ _); reflexivity.
Qed.

(** What a slot holds after the round, and what it could not take, is
    what it held and what it was offered. *)
Lemma settle_conserves (s : slot) :
  extent (settle slack W s)
  + (if over slack W s then proposal slack W s - c_max (info s) else 0)
  == extent s + offered slack W s.
Proof.
  unfold settle, over, offered, proposal.
  destruct (clamped s); simpl; [lra |].
  destruct (Qlt_bool _ _); simpl; lra.
Qed.

Lemma over_excess_nonneg (s : slot) :
  0 <= (if over slack W s then proposal slack W s - c_max (info s) else 0).
Proof.
  destruct (over slack W s) eqn:E; [| lra].
  unfold over in E. apply andb_prop in E. destruct E as [_ E].
  apply Qlt_bool_iff in E. lra.
Qed.

Lemma settle_wf (s : slot) : wf_slot s -> wf_slot (settle slack W s).
Proof.
  intros (Hmin & Hmax & Hst). unfold settle.
  destruct (clamped s); [repeat split; assumption |].
  pose proof (share_nonneg slack W _ slack_nonneg W_pos Hst) as Hshare.
  destruct (Qlt_bool _ _) eqn:E; unfold wf_slot; simpl.
  - repeat split; [lra | lra | assumption].
  - apply Qlt_bool_false_iff in E. unfold proposal in *.
    repeat split; [lra | lra | assumption].
Qed.

Lemma settle_room (s : slot) : wf_slot s -> room (settle slack W s) == room s.
Proof.
  intros (Hmin & Hmax & Hst). unfold settle, room, idle.
  destruct (clamped s) eqn:C; simpl; [rewrite C; simpl; reflexivity |].
  destruct (Qlt_bool _ _) eqn:E; simpl.
  - apply Qlt_bool_iff in E. unfold proposal in E.
    destruct (Qeq_bool (c_stretch (info s)) 0) eqn:Z; [| reflexivity].
    apply Qeq_bool_iff in Z.
    pose proof (share_zero slack W _ Z). lra.
  - destruct (Qeq_bool (c_stretch (info s)) 0) eqn:Z; [| reflexivity].
    apply Qeq_bool_iff in Z. unfold proposal.
    pose proof (share_zero slack W _ Z). lra.
Qed.

(** A slot that is not over its maximum ends within its room. *)
Lemma settle_within_room (s : slot) :
  wf_slot s -> over slack W s = false -> extent (settle slack W s) <= room s.
Proof.
  intros (Hmin & Hmax & Hst). unfold settle, room, idle, over.
  destruct (clamped s); simpl; [lra |].
  intros E. rewrite E. simpl. apply Qlt_bool_false_iff in E.
  destruct (Qeq_bool (c_stretch (info s)) 0) eqn:Z; [| exact E].
  apply Qeq_bool_iff in Z. unfold proposal.
  pose proof (share_zero slack W _ Z). lra.
Qed.
End Round.

(** *** The slots of one round together *)

Lemma remaining_stretch_nonneg (slots : list slot) :
  Forall wf_slot slots -> 0 <= remaining_stretch slots.
Proof.
  intros H. apply Qsum_map_nonneg. intros s Hs.
  destruct (clamped s); [lra |].
  rewrite List.Forall_forall in H. apply (H s Hs).
Qed.

(** While a child that is left has a weight other than 0, the weights
    left add up to more than 0. *)
Lemma remaining_stretch_pos (slots : list slot) :
  Forall wf_slot slots -> forallb idle slots = false ->
  0 < remaining_stretch slots.
Proof.
  induction 1 as [| s slots Hs Hslots IH]; simpl; [discriminate |].
  intros Hidle.
  pose proof (remaining_stretch_nonneg slots Hslots) as Hrest.
  unfold remaining_stretch in *. simpl.
  destruct Hs as (_ & _ & Hst).
  apply andb_false_iff in Hidle. destruct Hidle as [Hidle | Hidle].
  - unfold idle in Hidle. apply orb_false_iff in Hidle.
    destruct Hidle as [Hc Hz]. rewrite Hc.
    apply Qeq_bool_neq in Hz.
    destruct (Qle_lt_or_eq _ _ Hst) as [Hlt | Heq]; [lra |].
    exfalso. apply Hz. symmetry. exact Heq.
  - specialize (IH Hidle). destruct (clamped s); lra.
Qed.

Lemma offered_sum (slack : Q) (slots : list slot) :
  0 < remaining_stretch slots ->
  Qsum (map (offered slack (remaining_stretch slots)) slots) == slack.
Proof.
  intros HW. set (W := remaining_stretch slots) in *.
  rewrite (Qsum_map_eq _
             (fun s => (slack / W) * (if clamped s then 0 else c_stretch (info s)))).
  - rewrite Qsum_map_scale. fold (remaining_stretch slots). fold W.
    field. lra.
  - intros s _. unfold offered. destruct (clamped s); field; lra.
Qed.

Lemma excess_nonneg (slack W : Q) (slots : list slot) :
  0 <= excess slack W slots.
Proof.
  apply Qsum_map_nonneg. intros s _. apply over_excess_nonneg.
Qed.

Lemma excess_none (slack W : Q) (slots : list slot) :
  existsb (over slack W) slots = false -> excess slack W slots == 0.
Proof.
  induction slots as [| s slots IH]; simpl; [reflexivity |].
  intros H. apply orb_false_iff in H. destruct H as [Hs Hrest].
  unfold excess in *. simpl. rewrite Hs. rewrite (IH Hrest). ring.
Qed.

(** A round neither creates nor loses extent. *)
Lemma round_conserves (slack : Q) (slots : list slot) :
  0 < remaining_stretch slots ->
  Qsum (map extent (map (settle slack (remaining_stretch slots)) slots))
  + excess slack (remaining_stretch slots) slots
  == Qsum (map extent slots) + slack.
Proof.
  intros HW. set (W := remaining_stretch slots) in *.
  rewrite map_map. unfold excess. rewrite <- Qsum_map_plus.
  rewrite (Qsum_map_eq _ (fun s => extent s + offered slack W s))
    by (intros s _; apply settle_conserves).
  rewrite Qsum_map_plus. unfold W. rewrite (offered_sum slack slots HW).
  reflexivity.
Qed.

Lemma round_room (slack W : Q) (slots : list slot) :
  0 <= slack -> 0 < W -> Forall wf_slot slots ->
  Qsum (map room (map (settle slack W) slots)) == Qsum (map room slots).
Proof.
  intros Hs HW Hwf. rewrite map_map. apply Qsum_map_eq.
  intros s Hin. apply settle_room; try assumption.
  rewrite List.Forall_forall in Hwf. apply Hwf, Hin.
Qed.

Lemma round_wf (slack W : Q) (slots : list slot) :
  0 <= slack -> 0 < W -> Forall wf_slot slots ->
  Forall wf_slot (map (settle slack W) slots).
Proof.
  intros Hs HW. induction 1; simpl; constructor; auto using settle_wf.
Qed.

Lemma round_info (slack W : Q) (slots : list slot) :
  map info (map (settle slack W) slots) = map info slots.
Proof.
  rewrite map_map. apply map_ext. intros s. apply settle_info.
Qed.

(** A round in which a child is over its maximum leaves fewer children. *)
Lemma round_left_over (slack W : Q) (slots : list slot) :
  (left_over (map (settle slack W) slots) <= left_over slots)%nat /\
  (existsb (over slack W) slots = true ->
   (left_over (map (settle slack W) slots) < left_over slots)%nat).
Proof.
  unfold left_over.
  induction slots as [| s slots [IHle IHlt]]; simpl.
  - split; [lia | discriminate].
  - rewrite settle_clamped.
    destruct (clamped s) eqn:C; simpl.
    + assert (O : over slack W s = false) by (unfold over; rewrite C; reflexivity).
      rewrite O. simpl. split; [exact IHle | exact IHlt].
    + destruct (over slack W s); simpl.
      * split; [lia | intros _; lia].
      * split; [lia | intros H; specialize (IHlt H); lia].
Qed.

(** *** All the rounds *)

Lemma length_filter_start (children : list child) :
  length (List.filter (fun s => negb (clamped s)) (map start children))
  = length children.
Proof.
  induction children as [| c children IH]; simpl; [reflexivity |].
  f_equal. exact IH.
Qed.

(** More rounds than there are children left change nothing. *)
Lemma distribute_enough_rounds (r1 r2 : nat) (slack : Q) (slots : list slot) :
  (left_over slots < r1)%nat -> (left_over slots < r2)%nat ->
  distribute r1 slack slots = distribute r2 slack slots.
Proof.
  revert r2 slack slots.
  induction r1 as [| r1 IH]; intros r2 slack slots H1 H2; [lia |].
  destruct r2 as [| r2]; [lia |]. simpl.
  destruct (forallb idle slots); [reflexivity |].
  destruct (existsb _ slots) eqn:E; [| reflexivity].
  pose proof (round_left_over slack (remaining_stretch slots) slots) as [_ Hlt].
  specialize (Hlt E). apply IH; lia.
Qed.

Lemma distribute_rounds_suffice (k : nat) (slack : Q) (children : list child) :
  distribute (S (length children) + k) slack (map start children)
  = distribute (S (length children)) slack (map start children).
Proof.
  apply distribute_enough_rounds; unfold left_over;
    rewrite length_filter_start; lia.
Qed.

(** With enough rounds the distribution keeps every slot within its
    child's limits, and hands out all of the slack if the slots have room
    for it, and what they have room for otherwise. *)
Lemma distribute_sound (rounds : nat) (slack : Q) (slots : list slot) :
  (left_over slots < rounds)%nat -> 0 <= slack -> Forall wf_slot slots ->
  map info (distribute rounds slack slots) = map info slots /\
  Forall wf_slot (distribute rounds slack slots) /\
  (Qsum (map extent slots) + slack <= Qsum (map room slots) ->
   Qsum (map extent (distribute rounds slack slots))
   == Qsum (map extent slots) + slack) /\
  (Qsum (map room slots) <= Qsum (map extent slots) + slack ->
   Qsum (map extent (distribute rounds slack slots))
   == Qsum (map room slots)).
Proof.
  revert slack slots.
  induction rounds as [| rounds IH]; intros slack slots Hfuel Hslack Hwf; [lia |].
  simpl. destruct (forallb idle slots) eqn:Hidle.
  - (* every child left has weight 0 *)
    assert (Hroom : Qsum (map room slots) == Qsum (map extent slots)).
    { apply Qsum_map_eq. intros s Hs. unfold room.
      rewrite forallb_forall in Hidle. rewrite (Hidle s Hs). reflexivity. }
    repeat split; [exact Hwf | intros H; lra | intros H; lra].
  - pose proof (remaining_stretch_pos slots Hwf Hidle) as HW.
    pose proof (round_conserves slack slots HW) as Hcons.
    pose proof (round_room slack _ slots Hslack HW Hwf) as Hroom.
    pose proof (round_wf slack _ slots Hslack HW Hwf) as Hwf'.
    set (W := remaining_stretch slots) in *.
    destruct (existsb (over slack W) slots) eqn:Hover.
    + (* a child is over its maximum: clamp and go on with the excess *)
      pose proof (round_left_over slack W slots) as [_ Hlt].
      specialize (Hlt Hover).
      destruct (IH (excess slack W slots) (map (settle slack W) slots))
        as (Hinfo & Hres & Hall & Hcap);
        [lia | apply excess_nonneg | exact Hwf' |].
      rewrite Hinfo, round_info.
      repeat split; [exact Hres | intros H | intros H].
      * rewrite Hall by lra. lra.
      * rewrite Hcap by lra. lra.
    + (* no child is over its maximum: the round is the last *)
      pose proof (excess_none slack W slots Hover) as Hnone.
      assert (Hle : Qsum (map extent (map (settle slack W) slots))
                    <= Qsum (map room slots)).
      { rewrite map_map. apply Qsum_map_le. intros s Hs.
        apply settle_within_room; try assumption.
        - rewrite List.Forall_forall in Hwf. apply Hwf, Hs.
        - destruct (over slack W s) eqn:O; [| reflexivity].
          assert (existsb (over slack W) slots = true)
            by (apply existsb_exists; exists s; auto).
          congruence. }
      rewrite round_info.
      repeat split; [exact Hwf' | intros H; lra | intros H; lra].
Qed.

(** *** The layout *)

Lemma start_info (children : list child) : map info (map start children) = children.
Proof.
  rewrite map_map. simpl. apply map_id.
Qed.

Lemma start_extent (children : list child) :
  map extent (map start children) = map c_min children.
Proof.
  rewrite map_map. reflexivity.
Qed.

Lemma start_room (children : list child) :
  Qsum (map room (map start children)) = capacity children.
Proof.
  rewrite map_map. reflexivity.
Qed.

Lemma start_wf (children : list child) :
  Forall valid children -> Forall wf_slot (map start children).
Proof.
  induction 1 as [| c children [Hc Hs] _ IH]; simpl; constructor; [| exact IH].
  unfold wf_slot. simpl. repeat split; [lra | exact Hc | exact Hs].
Qed.

Lemma start_left_over (children : list child) :
  left_over (map start children) = length children.
Proof.
  apply length_filter_start.
Qed.

Lemma wf_slots_within_limits (slots : list slot) :
  Forall wf_slot slots ->
  Forall2 (fun c e => c_min c <= e /\ e <= c_max c)
          (map info slots) (map extent slots).
Proof.
  induction 1 as [| s slots (Hmin & Hmax & _) _ IH]; simpl; constructor; auto.
Qed.

(** C2: when the available extent is less than the sum of the minimums,
    every child is assigned exactly its minimum, and the assigned extents
    add up to the sum of the minimums. *)
Theorem tile_layout_overflow (available : Q) (children : list child) :
  available < total_min children ->
  tile_layout available children = map c_min children /\
  Qsum (tile_layout available children) == total_min children.
Proof.
  intros H. apply Qlt_bool_iff in H. unfold tile_layout. rewrite H.
  split; reflexivity.
Qed.

Lemma tile_layout_overflow_witness :
  200 < total_min (scenario 300 300) /\
  tile_layout 200 (scenario 300 300) = [100; 100; 100].
Proof.
  split; [reflexivity |].
  destruct (tile_layout_overflow 200 (scenario 300 300)) as [H _];
    [reflexivity | exact H].
Defined.

(** C1, as far as it holds: when the available extent is at least the sum
    of the minimums, every child's extent lies between its minimum and its
    maximum and the extents never add up to more than the available
    extent.  They add up to exactly the available extent when the children
    have room for it, a child of weight 0 taking no more than its minimum;
    otherwise they add up to all the room there is, and the rest of the
    slack stays unused. *)
Theorem tile_layout_fills_available_room (available : Q) (children : list child) :
  Forall valid children ->
  total_min children <= available ->
  Forall2 (fun c e => c_min c <= e /\ e <= c_max c)
          children (tile_layout available children) /\
  Qsum (tile_layout available children) <= available /\
  (available <= capacity children ->
   Qsum (tile_layout available children) == available) /\
  (capacity children <= available ->
   Qsum (tile_layout available children) == capacity children).
Proof.
  intros Hvalid Hmin.
  apply Qlt_bool_false_iff in Hmin. unfold tile_layout. rewrite Hmin.
  apply Qlt_bool_false_iff in Hmin.
  destruct (distribute_sound (S (length children))
              (available - total_min children) (map start children))
    as (Hinfo & Hwf & Hall & Hcap).
  - rewrite start_left_over. lia.
  - lra.
  - apply start_wf, Hvalid.
  - rewrite start_info in Hinfo. rewrite start_extent, start_room in Hall, Hcap.
    fold (total_min children) in Hall, Hcap.
    set (slots := distribute _ _ _) in *.
    split; [| split; [| split]].
    + rewrite <- Hinfo. apply wf_slots_within_limits, Hwf.
    + destruct (Qlt_le_dec (capacity children) available) as [L | L].
      * rewrite Hcap by lra. lra.
      * rewrite Hall by lra. lra.
    + intros H. rewrite Hall by lra. lra.
    + intros H. rewrite Hcap by lra. reflexivity.
Qed.

Lemma tile_layout_fills_available_room_witness :
  Forall valid (scenario 300 300) /\
  total_min (scenario 300 300) <= 400 /\
  Qsum (tile_layout 400 (scenario 300 300)) == 400.
Proof.
  assert (V : Forall valid (scenario 300 300)).
  { repeat constructor; simpl; lra. }
  assert (M : total_min (scenario 300 300) <= 400) by (vm_compute; discriminate).
  split; [exact V |]. split; [exact M |].
  destruct (tile_layout_fills_available_room 400 (scenario 300 300) V M)
    as (_ & _ & H & _).
  apply H. vm_compute. discriminate.
Defined.

(** C1 as stated fails: a single child with limits 0 and 100 and weight 1
    laid out into 200 is held at its maximum, so that the extents add up
    to 100 and not to 200. *)
Lemma tile_layout_leaves_slack_unused :
  Forall valid [mk_child 0 100 1] /\
  total_min [mk_child 0 100 1] <= 200 /\
  ~ (Qsum (tile_layout 200 [mk_child 0 100 1]) == 200 /\
     Forall2 (fun c e => c_min c <= e /\ e <= c_max c)
             [mk_child 0 100 1] (tile_layout 200 [mk_child 0 100 1])).
Proof.
  split; [| split].
  - repeat constructor; simpl; lra.
  - vm_compute. discriminate.
  - intros [H _]. vm_compute in H. discriminate.
Qed.

(** *** The scenarios of the design document *)

Lemma settle_keep (slack W : Q) (s : slot) (p : Q) :
  clamped s = false -> proposal slack W s == p -> p <= c_max (info s) ->
  over slack W s = false /\
  settle slack W s = mk_slot (info s) (proposal slack W s) false.
Proof.
  intros C Hp H. unfold over, settle. rewrite C. simpl.
  assert (E : Qlt_bool (c_max (info s)) (proposal slack W s) = false)
    by (apply Qlt_bool_false_iff; lra).
  rewrite E. split; reflexivity.
Qed.

Lemma settle_clamp (slack W : Q) (s : slot) (p : Q) :
  clamped s = false -> proposal slack W s == p -> c_max (info s) < p ->
  over slack W s = true /\
  settle slack W s = mk_slot (info s) (c_max (info s)) true.
Proof.
  intros C Hp H. unfold over, settle. rewrite C. simpl.
  assert (E : Qlt_bool (c_max (info s)) (proposal slack W s) = true)
    by (apply Qlt_bool_iff; lra).
  rewrite E. split; reflexivity.
Qed.

Lemma settle_done (slack W : Q) (s : slot) :
  clamped s = true -> over slack W s = false /\ settle slack W s = s.
Proof.
  intros C. unfold over, settle. rewrite C. split; reflexivity.
Qed.

Lemma distribute_clamp_round (n : nat) (slack : Q) (slots : list slot) :
  forallb idle slots = false ->
  existsb (over slack (remaining_stretch slots)) slots = true ->
  distribute (S n) slack slots
  = distribute n (excess slack (remaining_stretch slots) slots)
      (map (settle slack (remaining_stretch slots)) slots).
Proof. intros H1 H2. simpl. rewrite H1, H2. reflexivity. Qed.

Lemma distribute_last_round (n : nat) (slack : Q) (slots : list slot) :
  forallb idle slots = false ->
  existsb (over slack (remaining_stretch slots)) slots = false ->
  distribute (S n) slack slots
  = map (settle slack (remaining_stretch slots)) slots.
Proof. intros H1 H2. simpl. rewrite H1, H2. reflexivity. Qed.

Lemma approx_eq (x a y : Q) : x == a -> approx a y -> approx x y.
Proof.
  unfold approx. intros H. rewrite H. exact id.
Qed.

(** The first scenario: with no slack every child gets its minimum, and a
    slack of 100 is shared out as 25, 50 and 25. *)
Example scenario_no_slack :
  extents_eq (tile_layout 300 (scenario 300 300)) [100; 100; 100].
Proof. repeat constructor; vm_compute; reflexivity. Qed.

Example scenario_slack_100 :
  extents_eq (tile_layout 400 (scenario 300 300)) [125; 150; 125].
Proof. repeat constructor; vm_compute; reflexivity. Qed.

(** C3: in the tile of the examples (minimum 100 for every child, weights
    1, 2 and 1, maximum 130 for the third child, and any maximums of the
    first two that the result does not reach), the available 500 gives
    the children 150, 200 and 150 at first; the third is clamped to 130
    and the 20 it could not take go to the first two in proportion 1:2.
    The extents are 470/3, 640/3 and 130, that is 156.67, 213.33 and 130
    to two decimals. *)
Theorem scenario_third_child_clamped (max1 max2 : Q) :
  470 # 3 <= max1 -> 640 # 3 <= max2 ->
  extents_eq (tile_layout 500 (scenario max1 max2)) [470 # 3; 640 # 3; 130] /\
  Forall2 approx (tile_layout 500 (scenario max1 max2))
    [15667 # 100; 21333 # 100; 130].
Proof.
  intros H1 H2.
  set (c1 := mk_child 100 max1 1). set (c2 := mk_child 100 max2 2).
  set (c3 := mk_child 100 130 1).
  set (slots0 := [mk_slot c1 100 false; mk_slot c2 100 false; mk_slot c3 100 false]).
  set (W0 := remaining_stretch slots0).
  assert (E0 : tile_layout 500 (scenario max1 max2)
               = map extent (distribute 4 200 slots0)) by reflexivity.
  (* first round: the third child is clamped *)
  destruct (settle_keep 200 W0 (mk_slot c1 100 false) 150) as [O1 S1];
    [reflexivity | vm_compute; reflexivity | simpl; lra |].
  destruct (settle_keep 200 W0 (mk_slot c2 100 false) 200) as [O2 S2];
    [reflexivity | vm_compute; reflexivity | simpl; lra |].
  destruct (settle_clamp 200 W0 (mk_slot c3 100 false) 150) as [O3 S3];
    [reflexivity | vm_compute; reflexivity | simpl; lra |].
  assert (E1 : distribute 4 200 slots0
               = distribute 3 (excess 200 W0 slots0) (map (settle 200 W0) slots0)).
  { apply distribute_clamp_round; [reflexivity |].
    change (over 200 W0 (mk_slot c1 100 false)
            || (over 200 W0 (mk_slot c2 100 false)
                || (over 200 W0 (mk_slot c3 100 false) || false)) = true).
    rewrite O1, O2, O3. reflexivity. }
  change (distribute 4 200 slots0
          = distribute 3
              ((if over 200 W0 (mk_slot c1 100 false)
                then proposal 200 W0 (mk_slot c1 100 false) - max1 else 0)
               + ((if over 200 W0 (mk_slot c2 100 false)
                   then proposal 200 W0 (mk_slot c2 100 false) - max2 else 0)
                  + ((if over 200 W0 (mk_slot c3 100 false)
                      then proposal 200 W0 (mk_slot c3 100 false) - 130 else 0) + 0)))
              [settle 200 W0 (mk_slot c1 100 false);
               settle 200 W0 (mk_slot c2 100 false);
               settle 200 W0 (mk_slot c3 100 false)]) in E1.
  rewrite O1, O2, O3, S1, S2, S3 in E1.
  set (p1 := proposal 200 W0 (mk_slot c1 100 false)) in *.
  set (p2 := proposal 200 W0 (mk_slot c2 100 false)) in *.
  set (slack1 := 0 + (0 + (proposal 200 W0 (mk_slot c3 100 false) - 130 + 0))) in *.
  change (mk_slot (info (mk_slot c1 100 false)) p1 false)
    with (mk_slot c1 p1 false) in E1.
  change (mk_slot (info (mk_slot c2 100 false)) p2 false)
    with (mk_slot c2 p2 false) in E1.
  change (mk_slot (info (mk_slot c3 100 false))
            (c_max (info (mk_slot c3 100 false))) true)
    with (mk_slot c3 130 true) in E1.
  set (slots1 := [mk_slot c1 p1 false; mk_slot c2 p2 false; mk_slot c3 130 true]) in *.
  set (W1 := remaining_stretch slots1).
  (* second round: the excess of 20 fits, and the round is the last *)
  destruct (settle_keep slack1 W1 (mk_slot c1 p1 false) (470 # 3)) as [O1' S1'];
    [reflexivity | vm_compute; reflexivity | simpl; lra |].
  destruct (settle_keep slack1 W1 (mk_slot c2 p2 false) (640 # 3)) as [O2' S2'];
    [reflexivity | vm_compute; reflexivity | simpl; lra |].
  destruct (settle_done slack1 W1 (mk_slot c3 130 true)) as [O3' S3'];
    [reflexivity |].
  assert (E2 : distribute 3 slack1 slots1 = map (settle slack1 W1) slots1).
  { apply distribute_last_round; [reflexivity |].
    change (over slack1 W1 (mk_slot c1 p1 false)
            || (over slack1 W1 (mk_slot c2 p2 false)
                || (over slack1 W1 (mk_slot c3 130 true) || false)) = false).
    rewrite O1', O2', O3'. reflexivity. }
  change (distribute 3 slack1 slots1
          = [settle slack1 W1 (mk_slot c1 p1 false);
             settle slack1 W1 (mk_slot c2 p2 false);
             settle slack1 W1 (mk_slot c3 130 true)]) in E2.
  rewrite S1', S2', S3' in E2.
  rewrite E0, E1, E2.
  change (map extent _) with [proposal slack1 W1 (mk_slot c1 p1 false);
                              proposal slack1 W1 (mk_slot c2 p2 false); 130].
  assert (P1 : proposal slack1 W1 (mk_slot c1 p1 false) == 470 # 3)
    by (vm_compute; reflexivity).
  assert (P2 : proposal slack1 W1 (mk_slot c2 p2 false) == 640 # 3)
    by (vm_compute; reflexivity).
  split.
  - repeat constructor; assumption.
  - repeat constructor.
    + apply (approx_eq _ _ _ P1). vm_compute. discriminate.
    + apply (approx_eq _ _ _ P2). vm_compute. discriminate.
    + vm_compute. discriminate.
Qed.

Lemma scenario_third_child_clamped_witness :
  470 # 3 <= 300 /\ 640 # 3 <= 300 /\
  extents_eq (tile_layout 500 (scenario 300 300)) [470 # 3; 640 # 3; 130].
Proof.
  assert (H1 : 470 # 3 <= 300) by (vm_compute; discriminate).
  assert (H2 : 640 # 3 <= 300) by (vm_compute; discriminate).
  split; [exact H1 |]. split; [exact H2 |].
  destruct (scenario_third_child_clamped 300 300 H1 H2) as [H _]. exact H.
Defined.

End TileFacts.
